(** * minitunnel: the tunnel protocol and the relay engine

    A shallow embedding of the Go sources

      - [internal/protocol]  (message envelope, [WriteMessage], [ReadMessage]),
      - [cmd/server/main.go] (relay: handshake, routing, round trip, rewriting),
      - [cmd/agent/main.go]  (agent: receive loop and local forwarder),

    together with the parts of Go's standard library the code relies on
    ([strings], [encoding/json], [encoding/base64], [unicode/utf8],
    [net/http]'s header canonicalisation), modelled from their documented
    behaviour.

    Go strings and byte slices are byte sequences: both are [list ascii]
    here, an [ascii] being one byte.  Go's nil and empty slices and maps are
    identified, as [len] and [range] do. *)

From stdpp Require Import gmap strings list sorting.
From Stdlib Require Import Ascii ZArith Lia.
From Stdlib Require DecimalString DecimalZ.

Set Default Proof Using "Type".

(** ** Byte strings *)

Inductive blist : Type :=
  | bnil
  | bcons (a : ascii) (l : blist).

Fixpoint blist_of_bytes (l : list Byte.byte) : blist :=
  match l with
  | [] => bnil
  | b :: l => bcons (ascii_of_byte b) (blist_of_bytes l)
  end.

Fixpoint bytes_of_blist (l : blist) : list Byte.byte :=
  match l with
  | bnil => []
  | bcons a l => byte_of_ascii a :: bytes_of_blist l
  end.

Declare Scope bytes_scope.
Delimit Scope bytes_scope with B.
#[warning="-via-type-mismatch"]
String Notation list blist_of_bytes bytes_of_blist
  (via blist mapping [[nil] => bnil, [cons] => bcons]) : bytes_scope.
Open Scope bytes_scope.

Abbreviation bytes := (list ascii).

(** The double quote character, byte 34. *)
Definition dquote : ascii := "034"%char.

(** The numeric value of a byte. *)
Definition code (c : ascii) : N := N_of_ascii c.

(** ** Go's [strings] package, as far as the relay uses it *)

Module GoStrings.

(** [strings.HasPrefix(s, prefix)]. *)
Fixpoint HasPrefix (s prefix : bytes) {struct prefix} : bool :=
  match prefix, s with
  | [], _ => true
  | _ :: _, [] => false
  | p :: prefix', c :: s' => if decide (c = p) then HasPrefix s' prefix' else false
  end.

(** [strings.TrimPrefix(s, prefix)]. *)
Definition TrimPrefix (s prefix : bytes) : bytes :=
  if HasPrefix s prefix then drop (length prefix) s else s.

(** [strings.Index(s, substr)]: the index of the first instance of
    [substr] in [s]; Go's [-1] is [None]. *)
Fixpoint Index (s substr : bytes) : option nat :=
  if HasPrefix s substr then Some 0
  else match s with
       | [] => None
       | _ :: s' => S <$> Index s' substr
       end.

(** [strings.Contains(s, substr)] is [Index(s, substr) >= 0]. *)
Definition Contains (s substr : bytes) : bool :=
  match Index s substr with Some _ => true | None => false end.

(** [strings.SplitN(s, sep, n)] for a non-empty [sep] and [n >= 0]: at most
    [n] substrings, the last one being the unsplit remainder. *)
Fixpoint SplitN (s sep : bytes) (n : nat) : list bytes :=
  match n with
  | 0 => []
  | 1 => [s]
  | S n' =>
      match Index s sep with
      | None => [s]
      | Some i => take i s :: SplitN (drop (i + length sep) s) sep n'
      end
  end.

(** [strings.Replace(s, old, new, n)] for a non-empty [old] and [n >= 0]:
    the first [n] non-overlapping instances of [old] replaced by [new]. *)
Fixpoint Replace (s old new : bytes) (n : nat) : bytes :=
  match n with
  | 0 => s
  | S n' =>
      match Index s old with
      | None => s
      | Some i => take i s ++ new ++ Replace (drop (i + length old) s) old new n'
      end
  end.


End GoStrings.

(** ** Results of reading from a byte buffer

    A lexer or parser run on the bytes received so far either succeeds and
    returns the unread rest, fails, or needs more input. *)

Inductive pres (A : Type) : Type :=
  | POk (a : A) (rest : bytes)
  | PErr
  | PMore.
Arguments POk {A} a rest.
Arguments PErr {A}.
Arguments PMore {A}.

Definition pmap {A B : Type} (f : A → B) (p : pres A) : pres B :=
  match p with
  | POk a rest => POk (f a) rest
  | PErr => PErr
  | PMore => PMore
  end.

Definition pbind {A B : Type} (p : pres A) (k : A → bytes → pres B) : pres B :=
  match p with
  | POk a rest => k a rest
  | PErr => PErr
  | PMore => PMore
  end.

(** The lexeme read so far, put in front of the one that follows. *)
Definition pre (p : bytes) (r : pres bytes) : pres bytes := pmap (app p) r.

Definition in_range (lo hi : N) (c : ascii) : bool :=
  ((lo <=? code c) && (code c <=? hi))%N.

Definition is_digit (c : ascii) : bool := in_range 48 57 c.

(** ** [unicode/utf8] *)

Module Utf8.

(** A continuation byte, 0x80..0xBF. *)
Definition is_cont (c : ascii) : bool := in_range 0x80 0xBF c.

(** The table [first] and [acceptRanges] of [unicode/utf8]: for a leading byte
    of a multi-byte encoding, its length and the range of the second byte. *)
Definition lead (c : ascii) : option (nat * (N * N)) :=
  if in_range 0xC2 0xDF c then Some (2, (0x80, 0xBF)%N)
  else if in_range 0xE0 0xE0 c then Some (3, (0xA0, 0xBF)%N)
  else if in_range 0xE1 0xEC c then Some (3, (0x80, 0xBF)%N)
  else if in_range 0xED 0xED c then Some (3, (0x80, 0x9F)%N)
  else if in_range 0xEE 0xEF c then Some (3, (0x80, 0xBF)%N)
  else if in_range 0xF0 0xF0 c then Some (4, (0x90, 0xBF)%N)
  else if in_range 0xF1 0xF3 c then Some (4, (0x80, 0xBF)%N)
  else if in_range 0xF4 0xF4 c then Some (4, (0x80, 0x8F)%N)
  else None.

(** The width [utf8.DecodeRune] reports for a multi-byte encoding at the head
    of [s]; [0] stands for [(RuneError, 1)], an invalid or truncated
    encoding.  Single bytes below 0x80 are handled by the callers. *)
Definition rune_len (s : bytes) : nat :=
  match s with
  | c0 :: c1 :: s2 =>
      match lead c0 with
      | Some (n, (lo, hi)) =>
          if in_range lo hi c1 then
            match n, s2 with
            | 2, _ => 2
            | 3, c2 :: _ => if is_cont c2 then 3 else 0
            | 4, c2 :: c3 :: _ => if is_cont c2 && is_cont c3 then 4 else 0
            | _, _ => 0
            end
          else 0
      | None => 0
      end
  | _ => 0
  end.

(** The valid multi-byte encoding at the head of [s] and what follows it. *)
Definition rune_split (s : bytes) : option (bytes * bytes) :=
  match rune_len s, s with
  | 2, c0 :: c1 :: s2 => Some ([c0; c1], s2)
  | 3, c0 :: c1 :: c2 :: s3 => Some ([c0; c1; c2], s3)
  | 4, c0 :: c1 :: c2 :: c3 :: s4 => Some ([c0; c1; c2; c3], s4)
  | _, _ => None
  end.

(** [utf8.Valid]. *)
Fixpoint Valid (s : bytes) : bool :=
  match s with
  | [] => true
  | c0 :: s1 =>
      if (code c0 <? 0x80)%N then Valid s1
      else match rune_len s, s1 with
           | 2, _ :: s2 => Valid s2
           | 3, _ :: _ :: s3 => Valid s3
           | 4, _ :: _ :: _ :: s4 => Valid s4
           | _, _ => false
           end
  end.

(** U+FFFD, the replacement character, in UTF-8. *)
Definition RuneError : bytes :=
  [ascii_of_N 0xEF; ascii_of_N 0xBF; ascii_of_N 0xBD].

(** A string coerced to valid UTF-8: every byte that is not part of a valid
    encoding replaced by U+FFFD. *)
Fixpoint coerce (s : bytes) : bytes :=
  match s with
  | [] => []
  | c0 :: s1 =>
      if (code c0 <? 0x80)%N then c0 :: coerce s1
      else match rune_len s, s1 with
           | 2, c1 :: s2 => c0 :: c1 :: coerce s2
           | 3, c1 :: c2 :: s3 => c0 :: c1 :: c2 :: coerce s3
           | 4, c1 :: c2 :: c3 :: s4 => c0 :: c1 :: c2 :: c3 :: coerce s4
           | _, _ => RuneError ++ coerce s1
           end
  end.

(** [utf8.EncodeRune] / [utf8.AppendRune]. *)
Definition EncodeRune (r : N) : bytes :=
  (if r <? 0x80 then [ascii_of_N r]
   else if r <? 0x800 then
     [ascii_of_N (0xC0 + r / 64); ascii_of_N (0x80 + r mod 64)]
   else if ((0xD800 <=? r) && (r <? 0xE000)) || (0x10FFFF <? r) then RuneError
   else if r <? 0x10000 then
     [ascii_of_N (0xE0 + r / 4096); ascii_of_N (0x80 + (r / 64) mod 64);
      ascii_of_N (0x80 + r mod 64)]
   else
     [ascii_of_N (0xF0 + r / 262144); ascii_of_N (0x80 + (r / 4096) mod 64);
      ascii_of_N (0x80 + (r / 64) mod 64); ascii_of_N (0x80 + r mod 64)])%N.

End Utf8.

(** ** [strconv]: decimal integers *)

Module Strconv.

Definition digit (n : N) : ascii := ascii_of_N (48 + n).

Fixpoint format_go (fuel : nat) (n : N) (acc : bytes) : bytes :=
  match fuel with
  | 0 => acc
  | S fuel' =>
      let acc' := digit (n mod 10) :: acc in
      if (n <? 10)%N then acc' else format_go fuel' (n / 10) acc'
  end.

(** [strconv.FormatUint(n, 10)]. *)
Definition FormatUint (n : N) : bytes := format_go (S (N.to_nat (N.log2 n))) n [].

(** [strconv.FormatInt(z, 10)], as [strconv.AppendInt] writes it. *)
Definition FormatInt (z : Z) : bytes :=
  if (z <? 0)%Z then "-" ++ FormatUint (Z.to_N (- z)) else FormatUint (Z.to_N z).

(** The value of a run of decimal digits; [None] on any other byte. *)
Fixpoint digits_value (acc : N) (s : bytes) : option N :=
  match s with
  | [] => Some acc
  | c :: s' =>
      if is_digit c then digits_value (10 * acc + (code c - 48)) s' else None
  end.

Definition ParseUint (s : bytes) : option N :=
  match s with
  | [] => None
  | _ :: _ => digits_value 0 s
  end.

(** [strconv.ParseInt(s, 10, 64)] on a JSON number literal: an optional
    minus sign and digits, within the range of [int64]. *)
Definition ParseInt (s : bytes) : option Z :=
  let z :=
    match s with
    | "-"%char :: s' => (λ n, - Z.of_N n)%Z <$> ParseUint s'
    | _ => Z.of_N <$> ParseUint s
    end in
  z ≫= λ z, if ((- 2 ^ 63 <=? z) && (z <? 2 ^ 63))%Z then Some z else None.

(** [strconv.ParseUint(s, 10, 8)]. *)
Definition ParseUint8 (s : bytes) : option ascii :=
  ParseUint s ≫= λ n, if (n <? 256)%N then Some (ascii_of_N n) else None.

End Strconv.

(** ** [encoding/base64]: the standard, padded encoding

    [val = a<<16 | b<<8 | c] and the four 6-bit groups [val>>18&0x3F], ...
    are written with multiplication, division and remainder. *)

Module Base64.

(** [encodeStd]: the alphabet, indexed by a 6-bit value. *)
Definition encodeStd (n : N) : ascii :=
  (if n <? 26 then ascii_of_N (65 + n)
   else if n <? 52 then ascii_of_N (97 + (n - 26))
   else if n <? 62 then ascii_of_N (48 + (n - 52))
   else if n =? 62 then "+"%char
   else "/"%char)%N.

(** [decodeMap]: the 6-bit value of a character of the alphabet. *)
Definition decodeMap (c : ascii) : option N :=
  (if in_range 65 90 c then Some (code c - 65)
   else if in_range 97 122 c then Some (code c - 71)
   else if in_range 48 57 c then Some (code c + 4)
   else if decide (c = "+"%char) then Some 62
   else if decide (c = "/"%char) then Some 63
   else None)%N.

Definition pad : ascii := "="%char.

(** [StdEncoding.EncodeToString]. *)
Fixpoint EncodeToString (src : bytes) : bytes :=
  match src with
  | a :: b :: c :: rest =>
      let v := (code a * 65536 + code b * 256 + code c)%N in
      encodeStd (v / 262144) :: encodeStd ((v / 4096) mod 64)
        :: encodeStd ((v / 64) mod 64) :: encodeStd (v mod 64)
        :: EncodeToString rest
  | [a; b] =>
      let v := (code a * 65536 + code b * 256)%N in
      [encodeStd (v / 262144); encodeStd ((v / 4096) mod 64);
       encodeStd ((v / 64) mod 64); pad]
  | [a] =>
      let v := (code a * 65536)%N in
      [encodeStd (v / 262144); encodeStd ((v / 4096) mod 64); pad; pad]
  | [] => []
  end.

(** The four characters of a full quantum. *)
Definition quad (a b c : ascii) : bytes :=
  let v := (code a * 65536 + code b * 256 + code c)%N in
  [encodeStd (v / 262144); encodeStd ((v / 4096) mod 64);
   encodeStd ((v / 64) mod 64); encodeStd (v mod 64)].

(** The bytes of one quantum, [n] of them, from its 6-bit values. *)
Definition quantum (n : nat) (v0 v1 v2 v3 : N) : bytes :=
  let v := (v0 * 262144 + v1 * 4096 + v2 * 64 + v3)%N in
  take n [ascii_of_N (v / 65536); ascii_of_N ((v / 256) mod 256);
          ascii_of_N (v mod 256)].

Fixpoint decode_quanta (s : bytes) : option bytes :=
  match s with
  | [] => Some []
  | c0 :: c1 :: c2 :: c3 :: rest =>
      match rest with
      | [] =>
          if decide (c3 = pad) then
            if decide (c2 = pad) then
              v0 ← decodeMap c0; v1 ← decodeMap c1; Some (quantum 1 v0 v1 0 0)
            else
              v0 ← decodeMap c0; v1 ← decodeMap c1; v2 ← decodeMap c2;
              Some (quantum 2 v0 v1 v2 0)
          else
            v0 ← decodeMap c0; v1 ← decodeMap c1; v2 ← decodeMap c2;
            v3 ← decodeMap c3; Some (quantum 3 v0 v1 v2 v3)
      | _ :: _ =>
          v0 ← decodeMap c0; v1 ← decodeMap c1; v2 ← decodeMap c2;
          v3 ← decodeMap c3; tl ← decode_quanta rest;
          Some (quantum 3 v0 v1 v2 v3 ++ tl)
      end
  | _ => None
  end.

Definition is_newline (c : ascii) : bool :=
  bool_decide (c = "010"%char) || bool_decide (c = "013"%char).

(** [StdEncoding.Decode]: carriage returns and line feeds are ignored, the
    padding is required; [None] is a [CorruptInputError]. *)
Definition DecodeString (s : bytes) : option bytes :=
  decode_quanta (List.filter (λ c, negb (is_newline c)) s).

End Base64.

(** ** [encoding/json]

    Syntax: a scanner and parser for JSON text that yields a tree, and a
    printer.  The scanner works on the bytes received so far, so that a
    reader can tell a complete value from one that needs more input. *)

Module Json.

#[warning="-register-all"]
Inductive value : Type :=
  | JNull
  | JBool (b : bool)
  | JNumber (lit : bytes)
  | JString (s : bytes)
  | JArray (elems : list value)
  | JObject (members : list (bytes * value)).

(** [isSpace]: space, tab, carriage return, line feed. *)
Definition is_space (c : ascii) : bool :=
  bool_decide (c = " "%char) || bool_decide (c = "009"%char)
  || bool_decide (c = "013"%char) || bool_decide (c = "010"%char).

Fixpoint skip_space (s : bytes) : bytes :=
  match s with
  | [] => []
  | c :: s' => if is_space c then skip_space s' else s
  end.

(** *** Strings *)

Definition hex_digit (n : N) : ascii :=
  (if n <? 10 then ascii_of_N (48 + n) else ascii_of_N (87 + n))%N.

Definition hex_value (c : ascii) : option N :=
  (if in_range 48 57 c then Some (code c - 48)
   else if in_range 97 102 c then Some (code c - 87)
   else if in_range 65 70 c then Some (code c - 55)
   else None)%N.

Definition backslash : ascii := "\"%char.

(** The bytes [appendString] writes for one byte below 0x80, with HTML
    escaping on, as [json.Marshal] has it. *)
Definition escape_byte (c : ascii) : bytes :=
  if bool_decide (c = dquote) || bool_decide (c = backslash) then [backslash; c]
  else if bool_decide (c = "008"%char) then "\b"
  else if bool_decide (c = "012"%char) then "\f"
  else if bool_decide (c = "010"%char) then "\n"
  else if bool_decide (c = "013"%char) then "\r"
  else if bool_decide (c = "009"%char) then "\t"
  else if (code c <? 0x20)%N || bool_decide (c = "<"%char)
          || bool_decide (c = ">"%char) || bool_decide (c = "&"%char)
  then "\u00" ++ [hex_digit (code c / 16); hex_digit (code c mod 16)]
  else [c].

(** U+2028 and U+2029 in UTF-8: E2 80 A8 and E2 80 A9. *)
Definition is_line_sep (c0 c1 c2 : ascii) : option bytes :=
  if bool_decide (code c0 = 0xE2%N) && bool_decide (code c1 = 0x80%N) then
    if bool_decide (code c2 = 0xA8%N) then Some (backslash :: "u2028")
    else if bool_decide (code c2 = 0xA9%N) then Some (backslash :: "u2029")
    else None
  else None.

(** What [appendString] writes for a valid multi-byte encoding [r]. *)
Definition enc_rune (r : bytes) : bytes :=
  match r with
  | [c0; c1; c2] => default r (is_line_sep c0 c1 c2)
  | _ => r
  end.

(** [appendString], without the surrounding quotes: a string coerced to valid
    UTF-8, each invalid byte replaced by U+FFFD. *)
Fixpoint appendString (s : bytes) : bytes :=
  match s with
  | [] => []
  | c0 :: s1 =>
      if (code c0 <? 0x80)%N then escape_byte c0 ++ appendString s1
      else
        match Utf8.rune_len s, s1 with
        | 2, c1 :: s2 => c0 :: c1 :: appendString s2
        | 3, c1 :: c2 :: s3 =>
            match is_line_sep c0 c1 c2 with
            | Some esc => esc ++ appendString s3
            | None => c0 :: c1 :: c2 :: appendString s3
            end
        | 4, c1 :: c2 :: c3 :: s4 => c0 :: c1 :: c2 :: c3 :: appendString s4
        | _, _ => backslash :: "ufffd" ++ appendString s1
        end
  end.

Definition quote (s : bytes) : bytes := dquote :: appendString s ++ [dquote].

(** The code unit written by four hexadecimal digits. *)
Definition hex4 (h1 h2 h3 h4 : ascii) : option N :=
  v1 ← hex_value h1; v2 ← hex_value h2; v3 ← hex_value h3; v4 ← hex_value h4;
  Some (v1 * 4096 + v2 * 256 + v3 * 16 + v4)%N.

(** [getu4]: the code unit of a [\uXXXX] escape at the head of [s]. *)
Definition getu4 (s : bytes) : option N :=
  match s with
  | b :: u :: h1 :: h2 :: h3 :: h4 :: _ =>
      if bool_decide (b = backslash) && bool_decide (u = "u"%char) then
hex4 h1 h2 h3 h4
      else None
  | _ => None
  end.

(** [utf16.DecodeRune]: the code point of a surrogate pair. *)
Definition surrogate_pair (r1 r2 : N) : option N :=
  (if (0xD800 <=? r1) && (r1 <? 0xDC00) && (0xDC00 <=? r2) && (r2 <? 0xE000)
   then Some ((r1 - 0xD800) * 1024 + (r2 - 0xDC00) + 0x10000)
   else None)%N.

Definition is_surrogate (r : N) : bool := ((0xD800 <=? r) && (r <? 0xE000))%N.

(** A [\u] escape cut short by the end of the input: an error when a byte
    that is no hexadecimal digit was read already. *)
Definition truncated_u (s : bytes) : pres bytes :=
  if forallb (λ h, bool_decide (is_Some (hex_value h))) s then PMore else PErr.

(** The byte a two-character escape stands for. *)
Definition unescape (e : ascii) : option ascii :=
  if bool_decide (e = dquote) || bool_decide (e = backslash)
     || bool_decide (e = "/"%char) then Some e
  else if bool_decide (e = "b"%char) then Some "008"%char
  else if bool_decide (e = "f"%char) then Some "012"%char
  else if bool_decide (e = "n"%char) then Some "010"%char
  else if bool_decide (e = "r"%char) then Some "013"%char
  else if bool_decide (e = "t"%char) then Some "009"%char
  else None.

(** The scanner's string states together with [unquote]: [s] follows the
    opening quote; the result is the decoded string and what follows the
    closing quote.  Control characters and unknown escapes are errors;
    invalid UTF-8 and unpaired surrogates become U+FFFD. *)
Fixpoint string_tail (s : bytes) : pres bytes :=
  match s with
  | [] => PMore
  | c0 :: s1 =>
      if bool_decide (c0 = dquote) then POk [] s1
      else if bool_decide (c0 = backslash) then
        match s1 with
        | [] => PMore
        | e :: s2 =>
            if bool_decide (e = "u"%char) then
              match s2 with
              | h1 :: h2 :: h3 :: h4 :: s6 =>
                  match hex4 h1 h2 h3 h4 with
                  | None => PErr
                  | Some r =>
                      if is_surrogate r then
                        match getu4 s6 ≫= surrogate_pair r, s6 with
                        | Some r', _ :: _ :: _ :: _ :: _ :: _ :: s12 =>
                            pre (Utf8.EncodeRune r') (string_tail s12)
                        | _, _ => pre Utf8.RuneError (string_tail s6)
                        end
                      else pre (Utf8.EncodeRune r) (string_tail s6)
                  end
              | _ => truncated_u s2
              end
            else
              match unescape e with
              | Some c => pre [c] (string_tail s2)
              | None => PErr
              end
        end
      else if (code c0 <? 0x20)%N then PErr
      else if (code c0 <? 0x80)%N then pre [c0] (string_tail s1)
      else
        match Utf8.rune_len s, s1 with
        | 2, c1 :: s2 => pre [c0; c1] (string_tail s2)
        | 3, c1 :: c2 :: s3 => pre [c0; c1; c2] (string_tail s3)
        | 4, c1 :: c2 :: c3 :: s4 => pre [c0; c1; c2; c3] (string_tail s4)
        | _, _ => pre Utf8.RuneError (string_tail s1)
        end
  end.

(** *** Numbers *)

(** A maximal run of digits; the input must go on after it. *)
Fixpoint lex_digits (s : bytes) : pres bytes :=
  match s with
  | [] => PMore
  | c :: s' => if is_digit c then pre [c] (lex_digits s') else POk [] s
  end.

(** At least one digit. *)
Definition lex_digits1 (s : bytes) : pres bytes :=
  match s with
  | [] => PMore
  | c :: _ => if is_digit c then lex_digits s else PErr
  end.

Definition lex_then (p q : bytes → pres bytes) (s : bytes) : pres bytes :=
  pbind (p s) (λ a r, pre a (q r)).

(** [0], or a non-zero digit and more digits. *)
Definition lex_int (s : bytes) : pres bytes :=
  match s with
  | [] => PMore
  | c :: s' =>
      if bool_decide (c = "0"%char) then POk "0" s'
      else if is_digit c then lex_digits s
      else PErr
  end.

Definition lex_frac (s : bytes) : pres bytes :=
  match s with
  | [] => PMore
  | c :: s' =>
      if bool_decide (c = "."%char) then pre [c] (lex_digits1 s') else POk [] s
  end.

Definition lex_exp (s : bytes) : pres bytes :=
  match s with
  | [] => PMore
  | c :: s' =>
      if bool_decide (c = "e"%char) || bool_decide (c = "E"%char) then
        match s' with
        | [] => PMore
        | d :: s'' =>
            if bool_decide (d = "+"%char) || bool_decide (d = "-"%char)
            then pre [c; d] (lex_digits1 s'')
            else pre [c] (lex_digits1 s')
        end
      else POk [] s
  end.

(** The scanner's number states: the literal and the rest, which begins with
    the byte that ended the number. *)
Definition lex_number (s : bytes) : pres bytes :=
  let unsigned := lex_then lex_int (lex_then lex_frac lex_exp) in
  match s with
  | [] => PMore
  | c :: s' => if bool_decide (c = "-"%char) then pre [c] (unsigned s') else unsigned s
  end.

(** A literal name, [null], [true] or [false], after its first letter. *)
Fixpoint lex_name (name s : bytes) : pres unit :=
  match name, s with
  | [], _ => POk () s
  | _ :: _, [] => PMore
  | n :: name', c :: s' => if bool_decide (c = n) then lex_name name' s' else PErr
  end.

(** *** Values *)

(** The scanner refuses arrays and objects nested deeper than this. *)
Definition maxNestingDepth : nat := 100 * 100.

(** The members of an object, from the first key on; [pv] reads a member's
    value.  [fuel] bounds the number of members. *)
Fixpoint parse_members {A : Type} (pv : bytes → pres A) (fuel : nat) (s : bytes)
  : pres (list (bytes * A)) :=
  match fuel with
  | 0 => PErr
  | S fuel' =>
      match skip_space s with
      | [] => PMore
      | q :: s1 =>
          if bool_decide (q = dquote) then
            pbind (string_tail s1) (λ k s2,
              match skip_space s2 with
              | [] => PMore
              | c :: s3 =>
                  if bool_decide (c = ":"%char) then
                    pbind (pv s3) (λ v s4,
                      match skip_space s4 with
                      | [] => PMore
                      | d :: s5 =>
                          if bool_decide (d = ","%char)
                          then pmap (cons (k, v)) (parse_members pv fuel' s5)
                          else if bool_decide (d = "}"%char) then POk [(k, v)] s5
                          else PErr
                      end)
                  else PErr
              end)
          else PErr
      end
  end.

(** An object after its opening brace. *)
Definition parse_object {A : Type} (pv : bytes → pres A) (s : bytes)
  : pres (list (bytes * A)) :=
  match skip_space s with
  | [] => PMore
  | c :: s1 =>
      if bool_decide (c = "}"%char) then POk [] s1
      else parse_members pv (length s) s
  end.

Fixpoint parse_elements {A : Type} (pv : bytes → pres A) (fuel : nat) (s : bytes)
  : pres (list A) :=
  match fuel with
  | 0 => PErr
  | S fuel' =>
      pbind (pv s) (λ v s1,
        match skip_space s1 with
        | [] => PMore
        | d :: s2 =>
            if bool_decide (d = ","%char)
            then pmap (cons v) (parse_elements pv fuel' s2)
            else if bool_decide (d = "]"%char) then POk [v] s2
            else PErr
        end)
  end.

(** An array after its opening bracket. *)
Definition parse_array {A : Type} (pv : bytes → pres A) (s : bytes) : pres (list A) :=
  match skip_space s with
  | [] => PMore
  | c :: s1 =>
      if bool_decide (c = "]"%char) then POk [] s1
      else parse_elements pv (length s) s
  end.

(** One JSON value at the head of [s], leading space skipped; [depth] is the
    number of array and object levels still allowed. *)
Fixpoint parse_value (depth : nat) (s : bytes) : pres value :=
  match skip_space s with
  | [] => PMore
  | c :: s1 =>
      if bool_decide (c = "{"%char) then
        match depth with
        | 0 => PErr
        | S d => pmap JObject (parse_object (parse_value d) s1)
        end
      else if bool_decide (c = "["%char) then
        match depth with
        | 0 => PErr
        | S d => pmap JArray (parse_array (parse_value d) s1)
        end
      else if bool_decide (c = dquote) then pmap JString (string_tail s1)
      else if bool_decide (c = "-"%char) || is_digit c
      then pmap JNumber (lex_number (c :: s1))
      else if bool_decide (c = "t"%char) then pmap (λ _, JBool true) (lex_name "rue" s1)
      else if bool_decide (c = "f"%char) then pmap (λ _, JBool false) (lex_name "alse" s1)
      else if bool_decide (c = "n"%char) then pmap (λ _, JNull) (lex_name "ull" s1)
      else PErr
  end.

(** A value together with its text, as a [json.RawMessage] field receives
    it: the bytes of the value, without the space around it. *)
Definition raw_value (depth : nat) (s : bytes) : pres (value * bytes) :=
  let s1 := skip_space s in
  match parse_value depth s1 with
  | POk v rest => POk (v, take (length s1 - length rest) s1) rest
  | PErr => PErr
  | PMore => PMore
  end.

(** [checkValid] on a complete text, as [json.Unmarshal] runs it first: one
    value, space around it allowed.  At the end of the text the scanner is
    fed a space. *)
Definition parse_document (data : bytes) : option value :=
  match parse_value maxNestingDepth (data ++ " ") with
  | POk v rest => if forallb is_space rest then Some v else None
  | PErr => None
  | PMore => None
  end.

(** *** Printing *)

Fixpoint sep_by (l : list bytes) : bytes :=
  match l with
  | [] => []
  | [x] => x
  | x :: l' => x ++ "," ++ sep_by l'
  end.

(** The text [json.Marshal] writes for a tree: no space, strings quoted by
    [appendString], members in the order given. *)
Fixpoint print (v : value) : bytes :=
  match v with
  | JNull => "null"
  | JBool true => "true"
  | JBool false => "false"
  | JNumber lit => lit
  | JString s => quote s
  | JArray l => "[" ++ sep_by (List.map print l) ++ "]"
  | JObject l =>
      "{" ++ sep_by (List.map (λ '(k, x), quote k ++ ":" ++ print x) l) ++ "}"
  end.

(** One member of an object as [print] writes it. *)
Definition print_member (kx : bytes * value) : bytes :=
  let '(k, x) := kx in quote k ++ ":" ++ print x.

(** [appendCompact] with HTML escaping, as the encoder applies it to the
    output of a [Marshaler]: space outside strings dropped; inside strings
    [<], [>], [&], U+2028 and U+2029 escaped. *)
Fixpoint compact_go (in_string : bool) (s : bytes) : bytes :=
  match s with
  | [] => []
  | c :: s1 =>
      if in_string then
        if bool_decide (c = "<"%char) || bool_decide (c = ">"%char)
           || bool_decide (c = "&"%char)
        then "\u00" ++ [hex_digit (code c / 16); hex_digit (code c mod 16)]
               ++ compact_go true s1
        else if bool_decide (c = backslash) then
          match s1 with
          | [] => [c]
          | e :: s2 => c :: e :: compact_go true s2
          end
        else if bool_decide (code c = 0xE2%N) then
          match s1 with
          | c1 :: c2 :: s3 =>
              match is_line_sep c c1 c2 with
              | Some esc => esc ++ compact_go true s3
              | None => c :: compact_go true s1
              end
          | _ => c :: compact_go true s1
          end
        else c :: compact_go (negb (bool_decide (c = dquote))) s1
      else if is_space c then compact_go false s1
      else c :: compact_go (bool_decide (c = dquote)) s1
  end.

(** [None] is the syntax error of a text that is not one JSON value. *)
Definition Compact (src : bytes) : option bytes :=
  match parse_document src with
  | Some _ => Some (compact_go false src)
  | None => None
  end.

(** *** Storing a tree into Go values

    [None] is an [UnmarshalTypeError] (or the error of a bad base64 string).
    A JSON null leaves strings and numbers as they are and empties slices
    and maps. *)

Definition decode_string (cur : bytes) (v : value) : option bytes :=
  match v with
  | JString s => Some s
  | JNull => Some cur
  | _ => None
  end.

Definition decode_int (cur : Z) (v : value) : option Z :=
  match v with
  | JNumber lit => Strconv.ParseInt lit
  | JNull => Some cur
  | _ => None
  end.

(** Into a fresh [[]string]. *)
Definition decode_strings (v : value) : option (list bytes) :=
  match v with
  | JArray l => mapM (decode_string []) l
  | JNull => Some []
  | _ => None
  end.

(** Into a [map[string][]string]: each member is stored under its key, a
    later member replacing an earlier one of the same key. *)
Definition decode_headers (cur : gmap bytes (list bytes)) (v : value)
  : option (gmap bytes (list bytes)) :=
  match v with
  | JObject l =>
      foldl (λ acc '(k, x), m ← acc; vs ← decode_strings x; Some (<[k := vs]> m))
        (Some cur) l
  | JNull => Some ∅
  | _ => None
  end.

(** The elements of a JSON array stored into a [[]byte]; a null element
    leaves the byte at its index as it is. *)
Fixpoint decode_uint8s (cur : bytes) (l : list value) : option bytes :=
  match l with
  | [] => Some []
  | x :: l' =>
      b ← match x with
          | JNumber lit => Strconv.ParseUint8 lit
          | JNull => Some (default "000"%char (head cur))
          | _ => None
          end;
      bs ← decode_uint8s (tail cur) l';
      Some (b :: bs)
  end.

(** Into a [[]byte]: a JSON string holds base64. *)
Definition decode_bytes (cur : bytes) (v : value) : option bytes :=
  match v with
  | JString s => Base64.DecodeString s
  | JNull => Some []
  | JArray l => decode_uint8s cur l
  | _ => None
  end.

(** [foldName], as far as it can reach a field name made of ASCII letters,
    digits and underscores: lower-case ASCII letters become upper-case, and
    so do the Kelvin sign (E2 84 AA) and the long s (C5 BF), the two other
    code points that fold to an ASCII letter. *)
Fixpoint fold_name (s : bytes) : bytes :=
  match s with
  | [] => []
  | c0 :: s1 =>
      if in_range 97 122 c0 then ascii_of_N (code c0 - 32) :: fold_name s1
      else
        match s1 with
        | c1 :: s2 =>
            if bool_decide (code c0 = 0xC5%N) && bool_decide (code c1 = 0xBF%N)
            then "S"%char :: fold_name s2
            else
              match s2 with
              | c2 :: s3 =>
                  if bool_decide (code c0 = 0xE2%N) && bool_decide (code c1 = 0x84%N)
                     && bool_decide (code c2 = 0xAA%N)
                  then "K"%char :: fold_name s3
                  else c0 :: fold_name s1
              | [] => c0 :: fold_name s1
              end
        | [] => [c0]
        end
  end.

(** A member's key selects the field of that name, exactly or up to case. *)
Definition field_eq (name key : bytes) : bool :=
  bool_decide (fold_name key = fold_name name).

(** An object's members stored, in order, into a struct: [store] stores one
    member and leaves the struct as it is for an unknown key. *)
Definition decode_fields {S : Type} (store : bytes → value → S → option S)
    (l : list (bytes * value)) (cur : S) : option S :=
  foldl (λ acc '(k, x), st ← acc; store k x st) (Some cur) l.

(** Into a struct. *)
Definition decode_struct {S : Type} (store : bytes → value → S → option S)
    (cur : S) (v : value) : option S :=
  match v with
  | JObject l => decode_fields store l cur
  | JNull => Some cur
  | _ => None
  end.

(** *** What reading back a printed tree yields *)

(** The tree with every string coerced to valid UTF-8. *)
Fixpoint norm (v : value) : value :=
  match v with
  | JString s => JString (Utf8.coerce s)
  | JArray l => JArray (List.map norm l)
  | JObject l => JObject (List.map (λ '(k, x), (Utf8.coerce k, norm x)) l)
  | _ => v
  end.

(** A tree [json.Marshal] can have built at the types of the protocol: its
    numbers are integers written by [strconv], and its arrays and objects
    nest at most [d] deep. *)
#[warning="-register-all"]
Inductive printable : nat → value → Prop :=
  | printable_null d : printable d JNull
  | printable_bool d b : printable d (JBool b)
  | printable_number d z : printable d (JNumber (Strconv.FormatInt z))
  | printable_string d s : printable d (JString s)
  | printable_array d l :
      Forall (printable d) l → printable (S d) (JArray l)
  | printable_object d l :
      Forall (λ kx, printable d kx.2) l → printable (S d) (JObject l).

(** All strings of a tree, keys included, are valid UTF-8. *)
Fixpoint valid_strings (v : value) : bool :=
  match v with
  | JString s => Utf8.Valid s
  | JArray l => forallb valid_strings l
  | JObject l => forallb (λ '(k, x), Utf8.Valid k && valid_strings x) l
  | _ => true
  end.

(** What may follow a number: a byte that does not continue it. *)
Definition ends_number (rest : bytes) : Prop :=
  match rest with
  | [] => False
  | c :: _ =>
      is_digit c = false ∧ c ≠ "."%char ∧ c ≠ "e"%char ∧ c ≠ "E"%char
  end.

End Json.

(** ** Streams and errors

    The transport is an external collaborator.  One end of a stream is the
    data its successive [Read] calls will deliver, chunk by chunk and then
    end of file, the data written to it so far, and whether writing still
    works. *)

Inductive error : Type :=
  | EOF                  (* io.EOF *)
  | ErrUnexpectedEOF     (* io.ErrUnexpectedEOF *)
  | SyntaxError          (* json.SyntaxError *)
  | UnmarshalTypeError   (* json.UnmarshalTypeError and other decoding errors *)
  | MarshalerError       (* json.MarshalerError *)
  | WriteError           (* the error of a failed Write *)
  | LocalError (text : bytes).  (* an error of the local HTTP client *)

#[global] Instance error_eq_dec : EqDecision error.
Proof. solve_decision. Defined.

Record Stream : Type := mkStream {
  incoming : list bytes;
  outgoing : list bytes;
  writable : bool
}.

(** [stream.Write(data)]. *)
Definition stream_Write (st : Stream) (data : bytes) : option error * Stream :=
  if writable st
  then (None, mkStream (incoming st) (outgoing st ++ [data]) true)
  else (Some WriteError, st).

(** ** [internal/protocol] *)

Module protocol.

Definition MsgTypeHello : bytes := "hello".
Definition MsgTypeWelcome : bytes := "welcome".
Definition MsgTypeRequest : bytes := "request".
Definition MsgTypeResponse : bytes := "response".
Definition MsgTypeHeartbeat : bytes := "heartbeat".

(** [Message]; [Type_] is the field [Type], [Payload] a [json.RawMessage]. *)
Record Message : Type := mkMessage {
  Type_ : bytes;
  Payload : bytes
}.

Record WelcomePayload : Type := mkWelcomePayload {
  ClientID : bytes;
  TunnelURL : bytes
}.

Record HTTPRequest : Type := mkHTTPRequest {
  Method : bytes;
  Path : bytes;
  Headers : gmap bytes (list bytes);
  Body : bytes
}.

(** [HTTPResponse]; [RespHeaders] and [RespBody] are its fields [Headers]
    and [Body]. *)
Record HTTPResponse : Type := mkHTTPResponse {
  StatusCode : Z;
  RespHeaders : gmap bytes (list bytes);
  RespBody : bytes
}.

(** The strings of a header map, names and values, are valid UTF-8. *)
Definition valid_headers (h : gmap bytes (list bytes)) : bool :=
  forallb (λ '(k, vs), Utf8.Valid k && forallb Utf8.Valid vs) (map_to_list h).

(** A request whose strings are valid UTF-8; its body is any bytes. *)
Definition valid_request (req : HTTPRequest) : bool :=
  Utf8.Valid (Method req) && Utf8.Valid (Path req) && valid_headers (Headers req).

(** A response whose status code is a Go [int] and whose header strings are
    valid UTF-8; its body is any bytes. *)
Definition valid_response (resp : HTTPResponse) : bool :=
  bool_decide (- 2 ^ 63 ≤ StatusCode resp < 2 ^ 63)%Z
  && valid_headers (RespHeaders resp).

(** *** [json.Marshal] at the types of the protocol *)

(** Byte-wise lexicographic order, the order in which map keys are written. *)
Fixpoint bytes_le (a b : bytes) : bool :=
  match a, b with
  | [], _ => true
  | _ :: _, [] => false
  | x :: a', y :: b' =>
      if (code x <? code y)%N then true
      else if (code y <? code x)%N then false
      else bytes_le a' b'
  end.

Definition key_le (x y : bytes * list bytes) : Prop := bytes_le x.1 y.1.

Definition strings_value (vs : list bytes) : Json.value :=
  Json.JArray (List.map Json.JString vs).

Definition headers_value (h : gmap bytes (list bytes)) : Json.value :=
  Json.JObject
    (List.map (λ '(k, vs), (k, strings_value vs)) (merge_sort key_le (map_to_list h))).

Definition bytes_value (b : bytes) : Json.value :=
  Json.JString (Base64.EncodeToString b).

Definition request_value (req : HTTPRequest) : Json.value :=
  Json.JObject
    [("method", Json.JString (Method req));
     ("path", Json.JString (Path req));
     ("headers", headers_value (Headers req));
     ("body", bytes_value (Body req))].

Definition response_value (resp : HTTPResponse) : Json.value :=
  Json.JObject
    [("status_code", Json.JNumber (Strconv.FormatInt (StatusCode resp)));
     ("headers", headers_value (RespHeaders resp));
     ("body", bytes_value (RespBody resp))].

Definition welcome_value (w : WelcomePayload) : Json.value :=
  Json.JObject
    [("client_id", Json.JString (ClientID w));
     ("tunnel_url", Json.JString (TunnelURL w))].

(** [json.Marshal(req)], [json.Marshal(resp)], [json.Marshal(payload)]:
    strings, byte slices, integers and maps of them always marshal. *)
Definition Marshal_HTTPRequest (req : HTTPRequest) : error + bytes :=
  inr (Json.print (request_value req)).

Definition Marshal_HTTPResponse (resp : HTTPResponse) : error + bytes :=
  inr (Json.print (response_value resp)).

Definition Marshal_WelcomePayload (w : WelcomePayload) : error + bytes :=
  inr (Json.print (welcome_value w)).

(** [json.Marshal(msg)]: the payload, a [json.RawMessage], is written as it
    is after [Compact]; an empty one is written as [null]; one that is not
    JSON is an error. *)
Definition Marshal_Message (msg : Message) : error + bytes :=
  let payload :=
    match Payload msg with
    | [] => Some "null"
    | _ :: _ => Json.Compact (Payload msg)
    end in
  match payload with
  | Some p =>
      inr ("{" ++ Json.quote "type" ++ ":" ++ Json.quote (Type_ msg) ++ ","
               ++ Json.quote "payload" ++ ":" ++ p ++ "}")
  | None => inl MarshalerError
  end.

(** The envelope as a tree: what [json.Marshal(msg)] writes for a message
    whose payload is the text of [v]. *)
Definition envelope_value (type : bytes) (v : Json.value) : Json.value :=
  Json.JObject [("type", Json.JString type); ("payload", v)].

(** *** [json.Unmarshal] at the types of the protocol *)

Definition store_HTTPRequest (k : bytes) (x : Json.value) (r : HTTPRequest)
  : option HTTPRequest :=
  if Json.field_eq "method" k then
    v ← Json.decode_string (Method r) x;
    Some (mkHTTPRequest v (Path r) (Headers r) (Body r))
  else if Json.field_eq "path" k then
    v ← Json.decode_string (Path r) x;
    Some (mkHTTPRequest (Method r) v (Headers r) (Body r))
  else if Json.field_eq "headers" k then
    v ← Json.decode_headers (Headers r) x;
    Some (mkHTTPRequest (Method r) (Path r) v (Body r))
  else if Json.field_eq "body" k then
    v ← Json.decode_bytes (Body r) x;
    Some (mkHTTPRequest (Method r) (Path r) (Headers r) v)
  else Some r.

Definition store_HTTPResponse (k : bytes) (x : Json.value) (r : HTTPResponse)
  : option HTTPResponse :=
  if Json.field_eq "status_code" k then
    v ← Json.decode_int (StatusCode r) x;
    Some (mkHTTPResponse v (RespHeaders r) (RespBody r))
  else if Json.field_eq "headers" k then
    v ← Json.decode_headers (RespHeaders r) x;
    Some (mkHTTPResponse (StatusCode r) v (RespBody r))
  else if Json.field_eq "body" k then
    v ← Json.decode_bytes (RespBody r) x;
    Some (mkHTTPResponse (StatusCode r) (RespHeaders r) v)
  else Some r.

Definition store_WelcomePayload (k : bytes) (x : Json.value) (w : WelcomePayload)
  : option WelcomePayload :=
  if Json.field_eq "client_id" k then
    v ← Json.decode_string (ClientID w) x; Some (mkWelcomePayload v (TunnelURL w))
  else if Json.field_eq "tunnel_url" k then
    v ← Json.decode_string (TunnelURL w) x; Some (mkWelcomePayload (ClientID w) v)
  else Some w.

(** [json.Unmarshal(data, &v)] into a zero [v]. *)
Definition Unmarshal {S : Type} (store : bytes → Json.value → S → option S)
    (zero : S) (data : bytes) : error + S :=
  match Json.parse_document data with
  | None => inl SyntaxError
  | Some v =>
      match Json.decode_struct store zero v with
      | Some s => inr s
      | None => inl UnmarshalTypeError
      end
  end.

Definition Unmarshal_HTTPRequest : bytes → error + HTTPRequest :=
  Unmarshal store_HTTPRequest (mkHTTPRequest [] [] ∅ []).

Definition Unmarshal_HTTPResponse : bytes → error + HTTPResponse :=
  Unmarshal store_HTTPResponse (mkHTTPResponse 0 ∅ []).

Definition Unmarshal_WelcomePayload : bytes → error + WelcomePayload :=
  Unmarshal store_WelcomePayload (mkWelcomePayload [] []).

(** *** The envelope read from a stream *)

(** The top-level value a [json.Decoder] scans: an object's members come
    with their text, which the field [Payload] keeps. *)
Inductive top : Type :=
  | TopObject (members : list (bytes * (Json.value * bytes)))
  | TopOther (v : Json.value).

Definition parse_top (buf : bytes) : pres top :=
  match Json.skip_space buf with
  | [] => PMore
  | c :: s1 =>
      if bool_decide (c = "{"%char)
      then pmap TopObject
             (Json.parse_object (Json.raw_value (Json.maxNestingDepth - 1)) s1)
      else pmap TopOther (Json.parse_value Json.maxNestingDepth buf)
  end.

Definition store_Message (k : bytes) (x : Json.value * bytes) (m : Message)
  : option Message :=
  if Json.field_eq "type" k then
    v ← Json.decode_string (Type_ m) x.1; Some (mkMessage v (Payload m))
  else if Json.field_eq "payload" k then Some (mkMessage (Type_ m) x.2)
  else Some m.

(** [d.unmarshal(&msg)] on the scanned value. *)
Definition decode_Message (t : top) : error + Message :=
  match t with
  | TopObject l =>
      match foldl (λ acc '(k, x), m ← acc; store_Message k x m)
                  (Some (mkMessage [] [])) l with
      | Some m => inr m
      | None => inl UnmarshalTypeError
      end
  | TopOther Json.JNull => inr (mkMessage [] [])
  | TopOther _ => inl UnmarshalTypeError
  end.

(** [Decoder.readValue]: scan the buffer for one value and refill it from
    the reader while the value is incomplete.  What was read beyond the
    value stays in the decoder's buffer. *)
Fixpoint readValue (buf : bytes) (r : list bytes) : (error + top) * list bytes :=
  match parse_top buf with
  | POk t _ => (inr t, r)
  | PErr => (inl SyntaxError, r)
  | PMore =>
      match r with
      | chunk :: r' => readValue (buf ++ chunk) r'
      | [] =>
          match parse_top (buf ++ " ") with
          | POk t _ => (inr t, [])
          | _ => (inl (if forallb Json.is_space buf then EOF else ErrUnexpectedEOF), [])
          end
      end
  end.

(** [WriteMessage(w, msg)]. *)
Definition WriteMessage (w : Stream) (msg : Message) : option error * Stream :=
  match Marshal_Message msg with
  | inl err => (Some err, w)
  | inr data => stream_Write w (data ++ ["010"%char])
  end.

(** [ReadMessage(r)]: a new decoder, and with it a new buffer, per call. *)
Definition ReadMessage (r : Stream) : (error + Message) * Stream :=
  let '(res, rest) := readValue [] (incoming r) in
  let r' := mkStream rest (outgoing r) (writable r) in
  match res with
  | inr t => (decode_Message t, r')
  | inl err => (inl err, r')
  end.

(** The bytes [WriteMessage] hands to [Write] for a message, when the
    message could be made and marshals. *)
Definition wire (msg : error + Message) : option bytes :=
  match msg with
  | inl _ => None
  | inr m =>
      match Marshal_Message m with
      | inl _ => None
      | inr data => Some (data ++ ["010"%char])
      end
  end.

(** A message sent to the peer: [WriteMessage] on one end of a stream, then
    [ReadMessage] on the other end, where what was written arrives. *)
Definition transmit (msg : error + Message) : error + Message :=
  match msg with
  | inl err => inl err
  | inr m =>
      match WriteMessage (mkStream [] [] true) m with
      | (Some err, _) => inl err
      | (None, w) => (ReadMessage (mkStream (outgoing w) [] true)).1
      end
  end.

(** [NewWelcomeMessage], [NewRequestMessage], [NewResponseMessage]. *)
Definition NewWelcomeMessage (clientID tunnelURL : bytes) : error + Message :=
  match Marshal_WelcomePayload (mkWelcomePayload clientID tunnelURL) with
  | inl err => inl err
  | inr data => inr (mkMessage MsgTypeWelcome data)
  end.

Definition NewRequestMessage (req : HTTPRequest) : error + Message :=
  match Marshal_HTTPRequest req with
  | inl err => inl err
  | inr data => inr (mkMessage MsgTypeRequest data)
  end.

Definition NewResponseMessage (resp : HTTPResponse) : error + Message :=
  match Marshal_HTTPResponse resp with
  | inl err => inl err
  | inr data => inr (mkMessage MsgTypeResponse data)
  end.

End protocol.

(** ** [net/http]: headers and error replies *)

Module http.

(** [validHeaderFieldByte]: the bytes of an HTTP token. *)
Definition validHeaderFieldByte (c : ascii) : bool :=
  in_range 48 57 c || in_range 65 90 c || in_range 97 122 c
  || bool_decide (c ∈ ("!#$%&'*+-.^_`|~" : bytes)).

Definition to_upper (c : ascii) : ascii :=
  if in_range 97 122 c then ascii_of_N (code c - 32) else c.

Definition to_lower (c : ascii) : ascii :=
  if in_range 65 90 c then ascii_of_N (code c + 32) else c.

Fixpoint canonical_go (upper : bool) (s : bytes) : bytes :=
  match s with
  | [] => []
  | c :: s' =>
      (if upper then to_upper c else to_lower c)
        :: canonical_go (bool_decide (c = "-"%char)) s'
  end.

(** [http.CanonicalHeaderKey]: the first letter and every letter after a
    hyphen upper-case, the others lower-case; a key with a byte that is not
    a token byte is returned as it is. *)
Definition CanonicalHeaderKey (s : bytes) : bytes :=
  if forallb validHeaderFieldByte s then canonical_go true s else s.

(** [Header.Add(key, value)]. *)
Definition Header_Add (h : gmap bytes (list bytes)) (key value : bytes)
  : gmap bytes (list bytes) :=
  let k := CanonicalHeaderKey key in
  <[k := default [] (h !! k) ++ [value]]> h.

(** [Header.Set(key, value)]. *)
Definition Header_Set (h : gmap bytes (list bytes)) (key value : bytes)
  : gmap bytes (list bytes) :=
  <[CanonicalHeaderKey key := [value]]> h.

(** What a handler has written to its [http.ResponseWriter]. *)
Record Response : Type := mkResponse {
  status : Z;
  header : gmap bytes (list bytes);
  body : bytes
}.

Definition StatusBadRequest : Z := 400.
Definition StatusNotFound : Z := 404.
Definition StatusInternalServerError : Z := 500.
Definition StatusBadGateway : Z := 502.
Definition StatusServiceUnavailable : Z := 503.

(** [http.Error(w, msg, code)] on a fresh writer. *)
Definition Error (msg : bytes) (code : Z) : Response :=
  mkResponse code
    (Header_Set (Header_Set ∅ "Content-Type" "text/plain; charset=utf-8")
       "X-Content-Type-Options" "nosniff")
    (msg ++ ["010"%char]).

(** The request a handler receives, as far as the relay reads it;
    [ReqBody] is the result of [io.ReadAll(r.Body)]. *)
Record Request : Type := mkRequest {
  ReqMethod : bytes;
  URLPath : bytes;
  RawQuery : bytes;
  Header : gmap bytes (list bytes);
  ReqBody : error + bytes
}.

End http.

(** ** [cmd/server]: the relay *)

Module server.

(** [ClientInfo]: the stream of one agent.  Its mutex orders concurrent
    handlers and has no effect on one handler running alone; it is modelled
    with the interleavings of handlers in [Module relay_lock]. *)
Record ClientInfo : Type := mkClientInfo {
  stream : Stream
}.

(** [Server]: the configured port and the registry [clients]. *)
Record Server : Type := mkServer {
  Port : Z;
  clients : gmap bytes ClientInfo
}.

(** The [Range] over the registry in [handleHTTPRequest]: the key visited
    last and the number of keys. *)
Definition range_clients (m : gmap bytes ClientInfo) : bytes * nat :=
  foldl (λ '(_, count) '(key, _), (key, S count)) ([], 0) (map_to_list m).

(** The first segment of a request path, [parts[0]] in [handleHTTPRequest]:
    the path without its leading slash, up to the next slash. *)
Definition first_segment (path : bytes) : bytes :=
  default [] (GoStrings.SplitN (GoStrings.TrimPrefix path "/") "/" 2 !! 0).

(** The test that takes a first segment for a client ID. *)
Definition looks_like_id (seg : bytes) : bool :=
  bool_decide (30 < length seg) && GoStrings.Contains seg "-".

(** The query string as it is appended to the forwarded path. *)
Definition query_suffix (r : http.Request) : bytes :=
  if bool_decide (http.RawQuery r ≠ []) then "?" ++ http.RawQuery r else [].

(** Lines 155-195 of [handleHTTPRequest]: the client ID and the path to
    forward, or the error reply. *)
Definition route (m : gmap bytes ClientInfo) (r : http.Request)
  : http.Response + (bytes * bytes) :=
  let path := GoStrings.TrimPrefix (http.URLPath r) "/" in
  let parts := GoStrings.SplitN path "/" 2 in
  let part0 := default [] (parts !! 0) in
  let target :=
    if bool_decide (0 < length parts) && bool_decide (30 < length part0)
       && GoStrings.Contains part0 "-"
    then
      let requestPath :=
        match parts !! 1 with
        | Some part1 => if bool_decide (part1 ≠ []) then "/" ++ part1 else "/"
        | None => "/"
        end in
      inr (part0, requestPath)
    else
      let '(foundClientID, count) := range_clients m in
      if bool_decide (count = 0)
      then inl (http.Error "No agents connected" http.StatusServiceUnavailable)
      else if bool_decide (1 < count)
      then inl (http.Error
                  "Multiple agents connected - please use full tunnel URL: http://server:port/<client-id>/path"
                  http.StatusBadRequest)
      else inr (foundClientID, http.URLPath r) in
  match target with
  | inl reply => inl reply
  | inr (clientID, requestPath) =>
      inr (clientID,
           if bool_decide (http.RawQuery r ≠ [])
           then requestPath ++ "?" ++ http.RawQuery r
           else requestPath)
  end.

(** [fmt.Sprintf] of the base tag, with the quotes built from their byte. *)
Definition baseTag (clientID : bytes) : bytes :=
  "<base href=" ++ [dquote] ++ "/" ++ clientID ++ "/" ++ [dquote] ++ ">".

(** Lines 258-261: the first value of the header [Content-Type], or the
    empty string. *)
Definition contentType (httpResp : protocol.HTTPResponse) : bytes :=
  match protocol.RespHeaders httpResp !! ("Content-Type" : bytes) with
  | Some (h0 :: _) => h0
  | _ => []
  end.

(** Lines 263-276: the base tag injected into an HTML body. *)
Definition rewriteBody (clientID : bytes) (httpResp : protocol.HTTPResponse) : bytes :=
  let bodyStr := protocol.RespBody httpResp in
  if GoStrings.Contains (contentType httpResp) "text/html" then
    if GoStrings.Contains bodyStr "<head>"
    then GoStrings.Replace bodyStr "<head>" ("<head>" ++ baseTag clientID) 1
    else if GoStrings.Contains bodyStr "<HEAD>"
    then GoStrings.Replace bodyStr "<HEAD>" ("<HEAD>" ++ baseTag clientID) 1
    else bodyStr
  else bodyStr.

(** Lines 278-287: [Content-Length] deleted, every other value added to the
    writer's header, in the order the map is ranged over. *)
Definition copyHeaders (h : gmap bytes (list bytes)) : gmap bytes (list bytes) :=
  foldl (λ w '(key, values), foldl (λ w value, http.Header_Add w key value) w values)
    ∅ (map_to_list (delete ("Content-Length" : bytes) h)).

(** Lines 257-291: the reply written for a decoded response. *)
Definition writeResponse (clientID : bytes) (httpResp : protocol.HTTPResponse)
  : http.Response :=
  http.mkResponse (protocol.StatusCode httpResp)
    (copyHeaders (protocol.RespHeaders httpResp))
    (rewriteBody clientID httpResp).

(** The stream of a registered client after a handler has used it. *)
Definition set_stream (s : Server) (clientID : bytes) (st : Stream) : Server :=
  mkServer (Port s) (<[clientID := mkClientInfo st]> (clients s)).

(** Lines 155-220 of [handleHTTPRequest]: the client ID, its registry entry
    and the request to forward, or the error reply. *)
Definition buildRequest (s : Server) (r : http.Request)
  : http.Response + (bytes * ClientInfo * protocol.HTTPRequest) :=
  match route (clients s) r with
  | inl reply => inl reply
  | inr (clientID, requestPath) =>
      match clients s !! clientID with
      | None => inl (http.Error "Tunnel not found" http.StatusNotFound)
      | Some clientInfo =>
          match http.ReqBody r with
          | inl _ =>
              inl (http.Error "Error reading request body"
                     http.StatusInternalServerError)
          | inr body =>
              inr (clientID, clientInfo,
                   protocol.mkHTTPRequest (http.ReqMethod r) requestPath
                     (http.Header r) body)
          end
      end
  end.

(** Lines 222-291 of [handleHTTPRequest]: the request written to the
    client's stream, the next message read from it, and the reply; with the
    stream as the exchange left it. *)
Definition roundTrip (clientID : bytes) (clientInfo : ClientInfo)
    (httpReq : protocol.HTTPRequest) : http.Response * Stream :=
  match protocol.NewRequestMessage httpReq with
  | inl _ =>
      (http.Error "Error creating request message" http.StatusInternalServerError,
       stream clientInfo)
  | inr reqMsg =>
  match protocol.WriteMessage (stream clientInfo) reqMsg with
  | (Some _, st) =>
      (http.Error "Error forwarding request to agent" http.StatusBadGateway, st)
  | (None, st) =>
  let '(res, st') := protocol.ReadMessage st in
  match res with
  | inl _ => (http.Error "Error reading response from agent" http.StatusBadGateway, st')
  | inr respMsg =>
  if bool_decide (protocol.Type_ respMsg ≠ protocol.MsgTypeResponse)
  then (http.Error "Invalid response from agent" http.StatusBadGateway, st')
  else
  match protocol.Unmarshal_HTTPResponse (protocol.Payload respMsg) with
  | inl _ => (http.Error "Error parsing response from agent" http.StatusBadGateway, st')
  | inr httpResp => (writeResponse clientID httpResp, st')
  end end end end.

(** [Server.handleHTTPRequest]: the reply, and the server with the stream of
    the client as the handler left it. *)
Definition handleHTTPRequest (s : Server) (r : http.Request) : http.Response * Server :=
  match buildRequest s r with
  | inl reply => (reply, s)
  | inr (clientID, clientInfo, httpReq) =>
      let '(reply, st) := roundTrip clientID clientInfo httpReq in
      (reply, set_stream s clientID st)
  end.

(** What [handleAgentConnection] is given: the result of
    [conn.AcceptStream] and the UUID drawn for the connection. *)
Record Connection : Type := mkConnection {
  AcceptStream : error + Stream;
  uuid : bytes
}.

(** The stream after a hello message has been read from it: the stream was
    accepted, [ReadMessage] succeeded, and the message has the type [hello]. *)
Definition hello_read (conn : Connection) : option Stream :=
  match AcceptStream conn with
  | inl _ => None
  | inr st =>
      match protocol.ReadMessage st with
      | (inr helloMsg, st') =>
          if bool_decide (protocol.Type_ helloMsg = protocol.MsgTypeHello)
          then Some st' else None
      | (inl _, _) => None
      end
  end.

(** A run of [handleAgentConnection] either returns, or blocks on
    [conn.Context().Done()]; when the connection is done, the deferred calls
    run on the registry as it is then. *)
Inductive run : Type :=
  | Returned (s : Server)
  | Blocked (s : Server) (done : Server → Server).

Definition Store (s : Server) (clientID : bytes) (c : ClientInfo) : Server :=
  mkServer (Port s) (<[clientID := c]> (clients s)).

Definition Delete (s : Server) (clientID : bytes) : Server :=
  mkServer (Port s) (delete clientID (clients s)).

(** [Server.handleAgentConnection].  The registry entry holds the stream
    itself, so after the welcome message is written it shows the stream as
    the write left it.  [defer s.clients.Delete(clientID)] runs on every
    return that follows the [Store]. *)
Definition handleAgentConnection (s : Server) (conn : Connection) : run :=
  match AcceptStream conn with
  | inl _ => Returned s
  | inr st =>
  let '(res, st) := protocol.ReadMessage st in
  match res with
  | inl _ => Returned s
  | inr helloMsg =>
  if bool_decide (protocol.Type_ helloMsg ≠ protocol.MsgTypeHello) then Returned s
  else
  let clientID := uuid conn in
  let tunnelURL :=
    "http://localhost:" ++ Strconv.FormatInt (Port s + 1) ++ "/" ++ clientID in
  let s := Store s clientID (mkClientInfo st) in
  match protocol.NewWelcomeMessage clientID tunnelURL with
  | inl _ => Returned (Delete s clientID)
  | inr welcomeMsg =>
  match protocol.WriteMessage st welcomeMsg with
  | (Some _, _) => Returned (Delete s clientID)
  | (None, st) => Blocked (set_stream s clientID st) (λ s', Delete s' clientID)
  end end end end.

End server.

(** ** [cmd/agent]: the agent *)

Module agent.

Record Agent : Type := mkAgent {
  LocalAddr : bytes;
  clientID : bytes;
  tunnelURL : bytes
}.

(** The request [forwardToLocal] hands to the HTTP client. *)
Record LocalRequest : Type := mkLocalRequest {
  method : bytes;
  url : bytes;
  header : gmap bytes (list bytes);
  Host : bytes;
  body : bytes
}.

(** The reply of the local service; [Body] is the result of
    [io.ReadAll(resp.Body)]. *)
Record LocalResponse : Type := mkLocalResponse {
  StatusCode : Z;
  Header : gmap bytes (list bytes);
  Body : error + bytes
}.

(** The outbound HTTP client, an external collaborator: [http.NewRequest],
    which refuses a bad method or URL, and [client.Do] with its timeout of
    30 seconds. *)
Record HTTPClient : Type := mkHTTPClient {
  NewRequest : bytes → bytes → option error;
  Do : LocalRequest → error + LocalResponse
}.

(** [err.Error()]. *)
Definition error_text (e : error) : bytes :=
  match e with
  | EOF => "EOF"
  | ErrUnexpectedEOF => "unexpected EOF"
  | SyntaxError => "invalid character"
  | UnmarshalTypeError => "json: cannot unmarshal"
  | MarshalerError => "json: error calling MarshalJSON"
  | WriteError => "write error"
  | LocalError text => text
  end.

(** [Agent.forwardToLocal]. *)
Definition forwardToLocal (a : Agent) (c : HTTPClient) (httpReq : protocol.HTTPRequest)
  : error + protocol.HTTPResponse :=
  let url := "http://" ++ LocalAddr a ++ protocol.Path httpReq in
  match NewRequest c (protocol.Method httpReq) url with
  | Some err => inl err
  | None =>
      let h :=
        foldl (λ h '(key, values),
                 if bool_decide (key = ("Host" : bytes)) then h
                 else foldl (λ h value, http.Header_Add h key value) h values)
          ∅ (map_to_list (protocol.Headers httpReq)) in
      let h := http.Header_Set h "Host" (LocalAddr a) in
      match Do c (mkLocalRequest (protocol.Method httpReq) url h (LocalAddr a)
                    (protocol.Body httpReq)) with
      | inl err => inl err
      | inr resp =>
          match Body resp with
          | inl err => inl err
          | inr body => inr (protocol.mkHTTPResponse (StatusCode resp) (Header resp) body)
          end
      end
  end.

(** The reply the receive loop makes up when forwarding fails. *)
Definition errorResponse (err : error) : protocol.HTTPResponse :=
  protocol.mkHTTPResponse http.StatusBadGateway ∅ ("Error: " ++ error_text err).

(** One turn of the loop of [handleRequests]: go round again, or return. *)
Inductive turn : Type :=
  | Continue (st : Stream)
  | Return (err : option error) (st : Stream).

Definition iteration (a : Agent) (c : HTTPClient) (st : Stream) : turn :=
  let '(res, st) := protocol.ReadMessage st in
  match res with
  | inl err =>
      if bool_decide (err = EOF) then Return None st else Return (Some err) st
  | inr msg =>
  if bool_decide (protocol.Type_ msg ≠ protocol.MsgTypeRequest) then Continue st
  else
  match protocol.Unmarshal_HTTPRequest (protocol.Payload msg) with
  | inl _ => Continue st
  | inr httpReq =>
  let resp :=
    match forwardToLocal a c httpReq with
    | inl err => errorResponse err
    | inr resp => resp
    end in
  match protocol.NewResponseMessage resp with
  | inl _ => Continue st
  | inr respMsg =>
  match protocol.WriteMessage st respMsg with
  | (Some err, st) => Return (Some err) st
  | (None, st) => Continue st
  end end end end.

(** [Agent.handleRequests]: the loop, with the number of turns bounded by
    [fuel]; [None] when the bound is reached. *)
Fixpoint handleRequests_go (fuel : nat) (a : Agent) (c : HTTPClient) (st : Stream)
  : option (option error * Stream) :=
  match fuel with
  | 0 => None
  | S fuel' =>
      match iteration a c st with
      | Continue st' => handleRequests_go fuel' a c st'
      | Return err st' => Some (err, st')
      end
  end.

(** Every turn but the last takes at least one chunk off the stream. *)
Definition handleRequests (a : Agent) (c : HTTPClient) (st : Stream)
  : option (option error * Stream) :=
  handleRequests_go (S (length (incoming st))) a c st.

End agent.

(** ** Handlers of one session running concurrently

    Lines 228-243 of [handleHTTPRequest], for any number of handlers that
    were routed to the same [ClientInfo]: each locks the mutex, writes its
    request, reads a message and unlocks; when the write fails it unlocks
    at once.  A step is one of these actions by one handler. *)

Module relay_lock.












End relay_lock.

(** * Concrete inputs

    The messages, streams and collaborators the examples below run on. *)

Module examples.

Import protocol.

(** A page with two [<head>] tags. *)
Definition two_heads : HTTPResponse :=
  mkHTTPResponse 200 {["Content-Type" := ["text/html; charset=utf-8"]]}
    "<html><head><title>t</title></head><head></head></html>".

Definition local_agent : agent.Agent := agent.mkAgent "localhost:3000" "" "".

(** A local service that refuses every connection. *)
Definition refusing_client : agent.HTTPClient :=
  agent.mkHTTPClient (λ _ _, None) (λ _, inl (LocalError "connection refused")).



Definition heartbeat_frame : bytes :=
  "{" ++ [dquote] ++ "type" ++ [dquote] ++ ":" ++ [dquote] ++ "heartbeat" ++ [dquote]
  ++ "," ++ [dquote] ++ "payload" ++ [dquote] ++ ":{}}" ++ ["010"%char].

(** A reply whose length header is spelt in lower case, as HTTP allows. *)
Definition lower_case_length : HTTPResponse :=
  mkHTTPResponse 200
    {["Content-Type" := ["text/html"]; "content-length" := ["13"]]}
    "<head></head>".

(** The frame of [lower_case_length] as an agent writes it. *)
Definition lower_case_length_frame : bytes :=
  default [] (wire (NewResponseMessage lower_case_length)).

Definition session_id : bytes := "0123456789abcdef-0123456789abcdef".

(** A relay with one session, whose agent has [lower_case_length] ready. *)
Definition one_session : server.Server :=
  server.mkServer 8080
    {[session_id := server.mkClientInfo (mkStream [lower_case_length_frame] [] true)]}.

Definition get_session_root : http.Request :=
  http.mkRequest "GET" ("/" ++ session_id ++ "/") "" ∅ (inr "").


(** The request for [/%ff]: the path, percent-decoded, is not UTF-8. *)
Definition raw_path : HTTPRequest :=
  mkHTTPRequest "GET" ["/"%char; ascii_of_N 255] ∅ "".


Definition post_form : HTTPRequest :=
  mkHTTPRequest "POST" "/login?next=<home>"
    {["Content-Type" := ["application/x-www-form-urlencoded"];
      "Accept" := ["text/html"; "*/*"]]}
    ("user=a&pass=" ++ [ascii_of_N 255; ascii_of_N 0]).

Definition not_found : HTTPResponse :=
  mkHTTPResponse 404 {["Content-Type" := ["text/plain"]]} "not found".

(** A request for an asset, without the prefix of a session. *)
Definition get_asset : http.Request :=
  http.mkRequest "GET" "/style.css" "v=1" ∅ (inr "").

Definition no_session : server.Server := server.mkServer 8080 ∅.

End examples.

(** * Properties of the library models *)

Lemma code_lt_256 (c : ascii) : (code c < 256)%N.
Proof. apply N_ascii_bounded. Qed.

Lemma ascii_of_code (c : ascii) : ascii_of_N (code c) = c.
Proof. apply ascii_N_embedding. Qed.

Lemma code_inj (c d : ascii) : code c = code d → c = d.
Proof. intros H. rewrite <- (ascii_of_code c), <- (ascii_of_code d). by rewrite H. Qed.

Lemma code_of_N (n : N) : (n < 256)%N → code (ascii_of_N n) = n.
Proof. apply N_ascii_embedding. Qed.

(** A property of all bytes holds when it holds of the 256 of them. *)
Lemma forall_ascii (P : ascii → bool) :
  forallb (λ n, P (ascii_of_N (N.of_nat n))) (seq 0 256) = true → ∀ c, P c = true.
Proof.
  intros H c. rewrite forallb_forall in H.
  specialize (H (N.to_nat (code c))).
  rewrite N2Nat.id, ascii_of_code in H. apply H.
  apply in_seq. pose proof (code_lt_256 c). lia.
Qed.

Ltac by_bytes c :=
  revert c;
  match goal with
  | |- ∀ c : ascii, @?P c =>
      let H := fresh in
      intros c;
      assert (H : bool_decide (P c) = true);
      [ revert c; apply forall_ascii; vm_compute; reflexivity
      | apply bool_decide_eq_true in H; exact H ]
  end.

(** ** JSON strings: what [appendString] writes, [string_tail] reads back *)

Lemma string_tail_plain (c : ascii) (X : bytes) :
  c ≠ dquote → c ≠ Json.backslash →
  (code c <? 0x20)%N = false → (code c <? 0x80)%N = true →
  Json.string_tail (c :: X) = pre [c] (Json.string_tail X).
Proof.
  intros H1 H2 H3 H4. simpl.
  rewrite !bool_decide_eq_false_2 by done. by rewrite H3, H4.
Qed.

Lemma string_tail_u4 (h1 h2 h3 h4 : ascii) (r : N) (X : bytes) :
  Json.hex4 h1 h2 h3 h4 = Some r → Json.is_surrogate r = false →
  Json.string_tail (Json.backslash :: "u"%char :: h1 :: h2 :: h3 :: h4 :: X)
  = pre (Utf8.EncodeRune r) (Json.string_tail X).
Proof. intros H Hs. simpl. by rewrite H, Hs. Qed.

Lemma hex_value_digit (n : N) :
  (n < 16)%N → Json.hex_value (Json.hex_digit n) = Some n.
Proof.
  intros H.
  assert (Hn : n ∈ N.of_nat <$> seq 0 16).
  { apply list_elem_of_fmap. exists (N.to_nat n). split; [lia|].
    apply elem_of_seq. lia. }
  vm_compute in Hn. repeat (apply elem_of_cons in Hn as [->|Hn]; [by vm_compute|]).
  by apply elem_of_nil in Hn.
Qed.

Lemma string_tail_u00 (c : ascii) (X : bytes) :
  (code c <? 0x80)%N = true →
  Json.string_tail
    ("\u00" ++ [Json.hex_digit (code c / 16); Json.hex_digit (code c mod 16)] ++ X)
  = pre [c] (Json.string_tail X).
Proof.
  intros Hc. apply N.ltb_lt in Hc.
  change ("\u00" ++ ?l ++ X) with
    (Json.backslash :: "u"%char :: "0"%char :: "0"%char :: l ++ X).
  cbn [app].
  assert (Hd : (code c / 16 < 16)%N) by (apply N.Div0.div_lt_upper_bound; lia).
  assert (Hm : (code c mod 16 < 16)%N) by (apply N.mod_lt; lia).
  rewrite (string_tail_u4 _ _ _ _ (code c)).
  - unfold Utf8.EncodeRune. apply N.ltb_lt in Hc. rewrite Hc.
    by rewrite ascii_of_code.
  - unfold Json.hex4. rewrite !hex_value_digit by done. simpl. f_equal.
    pose proof (N.div_mod (code c) 16). lia.
  - unfold Json.is_surrogate. apply andb_false_iff. left. apply N.leb_gt. lia.
Qed.

Lemma string_tail_escape_byte (c : ascii) (X : bytes) :
  (code c <? 0x80)%N = true →
  Json.string_tail (Json.escape_byte c ++ X) = pre [c] (Json.string_tail X).
Proof.
  intros H. unfold Json.escape_byte.
  destruct (bool_decide (c = dquote)) eqn:E1.
  { apply bool_decide_eq_true in E1 as ->. reflexivity. }
  destruct (bool_decide (c = Json.backslash)) eqn:E2.
  { apply bool_decide_eq_true in E2 as ->. reflexivity. }
  cbn [orb].
  destruct (bool_decide (c = "008"%char)) eqn:E4.
  { apply bool_decide_eq_true in E4 as ->. reflexivity. }
  destruct (bool_decide (c = "012"%char)) eqn:E5.
  { apply bool_decide_eq_true in E5 as ->. reflexivity. }
  destruct (bool_decide (c = "010"%char)) eqn:E6.
  { apply bool_decide_eq_true in E6 as ->. reflexivity. }
  destruct (bool_decide (c = "013"%char)) eqn:E7.
  { apply bool_decide_eq_true in E7 as ->. reflexivity. }
  destruct (bool_decide (c = "009"%char)) eqn:E8.
  { apply bool_decide_eq_true in E8 as ->. reflexivity. }
  destruct (_ || _) eqn:E3.
  - rewrite <- app_assoc. by apply string_tail_u00.
  - apply orb_false_iff in E3 as [E3 _]. apply orb_false_iff in E3 as [E3 _].
    apply orb_false_iff in E3 as [E3 _].
    apply bool_decide_eq_false in E1, E2.
    by apply string_tail_plain.
Qed.

(** ** Multi-byte encodings at the head of a string *)

Ltac rune_cases c0 s1 :=
  let n := fresh "n" in
  remember (Utf8.rune_len (c0 :: s1)) as n;
  destruct n as [|[|[|[|[|n]]]]];
  destruct s1 as [|? [|? [|? ?]]]; try reflexivity.

Lemma appendString_high (c0 : ascii) (s1 : bytes) :
  (code c0 <? 0x80)%N = false →
  Json.appendString (c0 :: s1) =
    match Utf8.rune_split (c0 :: s1) with
    | Some (r, t) => Json.enc_rune r ++ Json.appendString t
    | None => Json.backslash :: "ufffd" ++ Json.appendString s1
    end.
Proof.
  intros H. unfold Utf8.rune_split. cbn [Json.appendString]. rewrite H.
  rune_cases c0 s1; cbn [Json.enc_rune]; by destruct (Json.is_line_sep _ _ _).
Qed.

Lemma coerce_high (c0 : ascii) (s1 : bytes) :
  (code c0 <? 0x80)%N = false →
  Utf8.coerce (c0 :: s1) =
    match Utf8.rune_split (c0 :: s1) with
    | Some (r, t) => r ++ Utf8.coerce t
    | None => Utf8.RuneError ++ Utf8.coerce s1
    end.
Proof.
  intros H. unfold Utf8.rune_split. cbn [Utf8.coerce]. rewrite H. rune_cases c0 s1.
Qed.

Lemma Valid_high (c0 : ascii) (s1 : bytes) :
  (code c0 <? 0x80)%N = false →
  Utf8.Valid (c0 :: s1) =
    match Utf8.rune_split (c0 :: s1) with
    | Some (r, t) => Utf8.Valid t
    | None => false
    end.
Proof.
  intros H. unfold Utf8.rune_split. cbn [Utf8.Valid]. rewrite H. rune_cases c0 s1.
Qed.

Lemma high_not_special (c0 : ascii) :
  (code c0 <? 0x80)%N = false →
  c0 ≠ dquote ∧ c0 ≠ Json.backslash ∧ (code c0 <? 0x20)%N = false.
Proof.
  intros H. apply N.ltb_ge in H. repeat split.
  - intros ->. vm_compute in H. by apply H.
  - intros ->. vm_compute in H. by apply H.
  - apply N.ltb_ge. lia.
Qed.

Lemma string_tail_high (c0 : ascii) (s1 : bytes) :
  (code c0 <? 0x80)%N = false →
  Json.string_tail (c0 :: s1) =
    match Utf8.rune_split (c0 :: s1) with
    | Some (r, t) => pre r (Json.string_tail t)
    | None => pre Utf8.RuneError (Json.string_tail s1)
    end.
Proof.
  intros H. destruct (high_not_special c0 H) as (H1 & H2 & H3).
  unfold Utf8.rune_split. cbn [Json.string_tail].
  rewrite !bool_decide_eq_false_2 by done. rewrite H, H3.
  rune_cases c0 s1.
Qed.

Lemma rune_split_spec (s : bytes) (r t : bytes) :
  Utf8.rune_split s = Some (r, t) →
  s = r ++ t ∧ length r ≠ 0 ∧ ∀ t', Utf8.rune_split (r ++ t') = Some (r, t').
Proof.
  unfold Utf8.rune_split, Utf8.rune_len.
  destruct s as [|c0 [|c1 s2]]; [done..|].
  destruct (Utf8.lead c0) as [[n [lo hi]]|] eqn:E0; [|done].
  destruct (in_range lo hi c1) eqn:E1; [|done].
  destruct n as [|[|[|[|[|n]]]]]; try done.
  - intros [= <- <-]. split; [done|]. split; [done|]. intros t'.
    cbn [app]. by rewrite E0, E1.
  - destruct s2 as [|c2 s3]; [done|].
    destruct (Utf8.is_cont c2) eqn:E2; [|done].
    intros [= <- <-]. split; [done|]. split; [done|]. intros t'.
    cbn [app]. by rewrite E0, E1, E2.
  - destruct s2 as [|c2 [|c3 s4]]; [done..|].
    destruct (Utf8.is_cont c2 && Utf8.is_cont c3) eqn:E2; [|done].
    intros [= <- <-]. split; [done|]. split; [done|]. intros t'.
    cbn [app]. by rewrite E0, E1, E2.
Qed.

Lemma pre_POk (p a rest : bytes) : pre p (POk a rest) = POk (p ++ a) rest.
Proof. reflexivity. Qed.

Lemma lead_high (c : ascii) :
  is_Some (Utf8.lead c) → (code c <? 0x80)%N = false.
Proof. by_bytes c. Qed.

Lemma rune_split_high (s r t : bytes) :
  Utf8.rune_split s = Some (r, t) →
  ∃ c0 r', r = c0 :: r' ∧ (code c0 <? 0x80)%N = false.
Proof.
  unfold Utf8.rune_split, Utf8.rune_len.
  destruct s as [|c0 [|c1 s2]]; [done..|].
  destruct (Utf8.lead c0) as [[n [lo hi]]|] eqn:E0; [|done].
  assert (H0 : (code c0 <? 0x80)%N = false) by (apply lead_high; by rewrite E0).
  destruct (in_range lo hi c1); [|done].
  destruct n as [|[|[|[|[|n]]]]]; try done.
  - intros [= <- <-]. eauto.
  - destruct s2 as [|c2 s3]; [done|]. destruct (Utf8.is_cont c2); [|done].
    intros [= <- <-]. eauto.
  - destruct s2 as [|c2 [|c3 s4]]; [done..|].
    destruct (Utf8.is_cont c2 && Utf8.is_cont c3); [|done].
    intros [= <- <-]. eauto.
Qed.

Lemma is_line_sep_spec (c0 c1 c2 : ascii) (esc : bytes) :
  Json.is_line_sep c0 c1 c2 = Some esc →
  ∃ h r, esc = Json.backslash :: "u"%char :: "2"%char :: "0"%char :: "2"%char :: [h]
         ∧ (h = "8"%char ∨ h = "9"%char)
         ∧ Json.hex4 "2" "0" "2" h = Some r
         ∧ Json.is_surrogate r = false
         ∧ Utf8.EncodeRune r = [c0; c1; c2].
Proof.
  unfold Json.is_line_sep.
  destruct (bool_decide (code c0 = _)) eqn:E0; [|done].
  destruct (bool_decide (code c1 = _)) eqn:E1; [|done].
  apply bool_decide_eq_true in E0, E1.
  apply code_inj with (d := ascii_of_N 0xE2) in E0 as ->.
  apply code_inj with (d := ascii_of_N 0x80) in E1 as ->.
  cbn [andb].
  destruct (bool_decide (code c2 = 0xA8%N)) eqn:E2.
  { apply bool_decide_eq_true in E2.
    apply code_inj with (d := ascii_of_N 0xA8) in E2 as ->.
    intros [= <-]. exists "8"%char, 0x2028%N. auto. }
  destruct (bool_decide (code c2 = 0xA9%N)) eqn:E3; [|done].
  apply bool_decide_eq_true in E3.
  apply code_inj with (d := ascii_of_N 0xA9) in E3 as ->.
  intros [= <-]. exists "9"%char, 0x2029%N. auto.
Qed.

Lemma enc_rune_read (r t X : bytes) :
  Utf8.rune_split (r ++ t) = Some (r, t) →
  Json.string_tail (Json.enc_rune r ++ X) = pre r (Json.string_tail X).
Proof.
  intros Hr. destruct (rune_split_spec _ _ _ Hr) as (_ & _ & Hall).
  destruct (rune_split_high _ _ _ Hr) as (c0 & r' & -> & Hc).
  assert (Hplain : Json.string_tail ((c0 :: r') ++ X) = pre (c0 :: r') (Json.string_tail X)).
  { cbn [app]. rewrite string_tail_high by done.
    change (c0 :: r' ++ X) with ((c0 :: r') ++ X). by rewrite Hall. }
  destruct r' as [|c1 [|c2 [|c3 r']]]; try exact Hplain.
  cbn [Json.enc_rune]. destruct (Json.is_line_sep c0 c1 c2) as [esc|] eqn:E; [|exact Hplain].
  destruct (is_line_sep_spec _ _ _ _ E) as (h & r & -> & _ & Hh & Hs & He).
  cbn -[Json.string_tail]. by rewrite (string_tail_u4 _ _ _ _ r), He.
Qed.

Lemma string_tail_appendString (s rest : bytes) :
  Json.string_tail (Json.appendString s ++ dquote :: rest) = POk (Utf8.coerce s) rest.
Proof.
  remember (length s) as n eqn:Hn. revert s Hn.
  induction n as [n IH] using lt_wf_ind. intros s Hn.
  destruct s as [|c0 s1]; [reflexivity|].
  destruct (code c0 <? 0x80)%N eqn:Hc.
  - cbn [Json.appendString Utf8.coerce]. rewrite Hc, <- app_assoc.
    rewrite string_tail_escape_byte by done.
    rewrite (IH (length s1)); [done| simpl in Hn; lia | done].
  - rewrite appendString_high, coerce_high by done.
    destruct (Utf8.rune_split (c0 :: s1)) as [[r t]|] eqn:Hr.
    + destruct (rune_split_spec _ _ _ Hr) as (Hs & Hl & Hall).
      rewrite <- app_assoc, (enc_rune_read r t) by (by rewrite <- Hs).
      rewrite (IH (length t)); [done| | done].
      rewrite Hn, Hs, length_app. lia.
    + change (Json.backslash :: "ufffd" ++ ?a) with
        (Json.backslash :: "u"%char :: "f"%char :: "f"%char :: "f"%char :: "d"%char :: a).
      cbn [app]. rewrite (string_tail_u4 _ _ _ _ 0xFFFD) by done.
      rewrite (IH (length s1)); [done| simpl in Hn; lia | done].
Qed.

Lemma coerce_Valid (s : bytes) : Utf8.Valid s = true → Utf8.coerce s = s.
Proof.
  remember (length s) as n eqn:Hn. revert s Hn.
  induction n as [n IH] using lt_wf_ind. intros s Hn Hv.
  destruct s as [|c0 s1]; [done|].
  destruct (code c0 <? 0x80)%N eqn:Hc.
  - cbn [Utf8.coerce Utf8.Valid] in *. rewrite Hc in *. f_equal.
    apply (IH (length s1)); [simpl in Hn; lia|done..].
  - rewrite coerce_high by done. rewrite Valid_high in Hv by done.
    destruct (Utf8.rune_split (c0 :: s1)) as [[r t]|] eqn:Hr; [|done].
    destruct (rune_split_spec _ _ _ Hr) as (Hs & Hl & _).
    rewrite Hs. f_equal. apply (IH (length t)); [|done..].
    rewrite Hn, Hs, length_app. lia.
Qed.

(** ** JSON strings: [appendCompact] leaves what [appendString] wrote *)

Lemma compact_plain (c : ascii) (X : bytes) :
  c ≠ "<"%char → c ≠ ">"%char → c ≠ "&"%char → c ≠ Json.backslash →
  code c ≠ 0xE2%N →
  Json.compact_go true (c :: X)
  = c :: Json.compact_go (negb (bool_decide (c = dquote))) X.
Proof.
  intros. cbn [Json.compact_go]. by rewrite !bool_decide_eq_false_2 by done.
Qed.

Lemma compact_escape (e : ascii) (X : bytes) :
  Json.compact_go true (Json.backslash :: e :: X)
  = Json.backslash :: e :: Json.compact_go true X.
Proof. reflexivity. Qed.

Lemma hex_digit_plain (n : N) (X : bytes) :
  (n < 16)%N →
  Json.compact_go true (Json.hex_digit n :: X) = Json.hex_digit n :: Json.compact_go true X.
Proof.
  intros H.
  assert (Hn : n ∈ N.of_nat <$> seq 0 16).
  { apply list_elem_of_fmap. exists (N.to_nat n). split; [lia|].
    apply elem_of_seq. lia. }
  vm_compute in Hn. repeat (apply elem_of_cons in Hn as [->|Hn]; [reflexivity|]).
  by apply elem_of_nil in Hn.
Qed.

Lemma compact_escape_byte (c : ascii) (X : bytes) :
  (code c <? 0x80)%N = true →
  Json.compact_go true (Json.escape_byte c ++ X)
  = Json.escape_byte c ++ Json.compact_go true X.
Proof.
  intros H. unfold Json.escape_byte.
  destruct (bool_decide (c = dquote) || bool_decide (c = Json.backslash)) eqn:E1.
  { reflexivity. }
  apply orb_false_iff in E1 as [E1 E2]. apply bool_decide_eq_false in E1, E2.
  repeat (case_bool_decide; [reflexivity|]).
  destruct (_ || _) eqn:E3.
  - apply N.ltb_lt in H.
    change ("\u00" ++ ?l) with
      (Json.backslash :: "u"%char :: "0"%char :: "0"%char :: l).
    cbn [app]. rewrite compact_escape.
    rewrite (compact_plain "0"), (compact_plain "0") by done.
    change (negb (bool_decide ("0"%char = dquote))) with true.
    rewrite !hex_digit_plain; [done| |].
    + apply N.mod_lt; lia.
    + apply N.Div0.div_lt_upper_bound; lia.
  - apply orb_false_iff in E3 as [E3 E6]. apply orb_false_iff in E3 as [E3 E5].
    apply orb_false_iff in E3 as [_ E4].
    apply bool_decide_eq_false in E4, E5, E6.
    cbn [app]. rewrite compact_plain; try done.
    + by rewrite bool_decide_eq_false_2.
    + apply N.ltb_lt in H. lia.
Qed.

Lemma lead_range (c : ascii) (n : nat) (lo hi : N) :
  Utf8.lead c = Some (n, (lo, hi)) → (0x80 <= lo ∧ hi <= 0xBF)%N.
Proof. unfold Utf8.lead. intros H. repeat case_match; simplify_eq; lia. Qed.

Lemma cont_plain (c : ascii) (lo hi : N) (X : bytes) :
  (0x80 <= lo ∧ hi <= 0xBF)%N → in_range lo hi c = true →
  Json.compact_go true (c :: X) = c :: Json.compact_go true X.
Proof.
  intros [Hlo Hhi] Hc. unfold in_range in Hc.
  apply andb_true_iff in Hc as [H1%N.leb_le H2%N.leb_le].
  assert (Hne : ∀ d : ascii, (code d < 0x80)%N → c ≠ d).
  { intros d Hd ->. lia. }
  rewrite compact_plain; try (apply Hne; by vm_compute); [|lia].
  rewrite bool_decide_eq_false_2; [done|]. apply Hne. by vm_compute.
Qed.

Lemma rune_split_inv (s r t : bytes) :
  Utf8.rune_split s = Some (r, t) →
  ∃ c0 c1 cs n lo hi,
    r = c0 :: c1 :: cs ∧ Utf8.lead c0 = Some (n, (lo, hi))
    ∧ in_range lo hi c1 = true
    ∧ Forall (λ c, Utf8.is_cont c = true) cs
    ∧ n = length r.
Proof.
  unfold Utf8.rune_split, Utf8.rune_len.
  destruct s as [|c0 [|c1 s2]]; [done..|].
  destruct (Utf8.lead c0) as [[n [lo hi]]|] eqn:E0; [|done].
  destruct (in_range lo hi c1) eqn:E1; [|done].
  destruct n as [|[|[|[|[|n]]]]]; try done.
  - intros [= <- <-]. by exists c0, c1, [], 2, lo, hi.
  - destruct s2 as [|c2 s3]; [done|].
    destruct (Utf8.is_cont c2) eqn:E2; [|done].
    intros [= <- <-]. exists c0, c1, [c2], 3, lo, hi. repeat split; auto.
  - destruct s2 as [|c2 [|c3 s4]]; [done..|].
    destruct (Utf8.is_cont c2 && Utf8.is_cont c3) eqn:E2; [|done].
    apply andb_true_iff in E2 as [E2 E3].
    intros [= <- <-]. exists c0, c1, [c2; c3], 4, lo, hi. repeat split; auto.
Qed.

Lemma conts_plain (cs X : bytes) :
  Forall (λ c, Utf8.is_cont c = true) cs →
  Json.compact_go true (cs ++ X) = cs ++ Json.compact_go true X.
Proof.
  induction 1 as [|c cs Hc _ IH]; [done|].
  cbn [app]. rewrite (cont_plain c 0x80 0xBF) by (done || lia). by rewrite IH.
Qed.

Lemma compact_E2 (c1 c2 : ascii) (X : bytes) :
  Json.compact_go true (ascii_of_N 0xE2 :: c1 :: c2 :: X)
  = match Json.is_line_sep (ascii_of_N 0xE2) c1 c2 with
    | Some esc => esc ++ Json.compact_go true X
    | None => ascii_of_N 0xE2 :: Json.compact_go true (c1 :: c2 :: X)
    end.
Proof. reflexivity. Qed.

Lemma compact_enc_rune (r t X : bytes) :
  Utf8.rune_split (r ++ t) = Some (r, t) →
  Json.compact_go true (Json.enc_rune r ++ X) = Json.enc_rune r ++ Json.compact_go true X.
Proof.
  intros Hr.
  destruct (rune_split_inv _ _ _ Hr) as (c0 & c1 & cs & n & lo & hi & -> & H0 & H1 & Hcs & Hn).
  assert (Hhigh : (code c0 <? 0x80)%N = false) by (apply lead_high; by rewrite H0).
  apply N.ltb_ge in Hhigh.
  assert (Hne : ∀ d : ascii, (code d < 0x80)%N → c0 ≠ d).
  { intros d Hd ->. lia. }
  pose proof (lead_range _ _ _ _ H0) as Hrange.
  destruct (decide (code c0 = 0xE2%N)) as [HE2|HE2].
  - apply code_inj with (d := ascii_of_N 0xE2) in HE2 as ->.
    vm_compute in H0. injection H0 as <- <- <-.
    destruct cs as [|c2 [|c3 cs]]; try done.
    cbn [Json.enc_rune].
    destruct (Json.is_line_sep _ c1 c2) as [esc|] eqn:E.
    + destruct (is_line_sep_spec _ _ _ _ E) as (h & r & -> & [-> | ->] & _); reflexivity.
    + cbn [default from_option id app]. rewrite compact_E2.
      rewrite E.
      rewrite (cont_plain c1 0x80 0xBF) by (done || lia).
      apply Forall_cons in Hcs as [Hc2 _].
      by rewrite (cont_plain c2 0x80 0xBF) by (done || lia).
  - assert (He : Json.enc_rune (c0 :: c1 :: cs) = c0 :: c1 :: cs).
    { destruct cs as [|c2 [|c3 cs]]; try done. cbn [Json.enc_rune].
      unfold Json.is_line_sep. by rewrite (bool_decide_eq_false_2 _ HE2). }
    rewrite He. cbn [app].
    rewrite compact_plain by (try (apply Hne; by vm_compute); done).
    rewrite bool_decide_eq_false_2 by (apply Hne; by vm_compute). cbn [negb].
    rewrite (cont_plain c1 lo hi) by done.
    by rewrite conts_plain.
Qed.

Lemma compact_ufffd (Y : bytes) :
  Json.compact_go true
    (Json.backslash :: "u"%char :: "f"%char :: "f"%char :: "f"%char :: "d"%char :: Y)
  = Json.backslash :: "u"%char :: "f"%char :: "f"%char :: "f"%char :: "d"%char
      :: Json.compact_go true Y.
Proof. reflexivity. Qed.

Lemma compact_appendString (s rest : bytes) :
  Json.compact_go true (Json.appendString s ++ dquote :: rest)
  = Json.appendString s ++ dquote :: Json.compact_go false rest.
Proof.
  remember (length s) as n eqn:Hn. revert s Hn.
  induction n as [n IH] using lt_wf_ind. intros s Hn.
  destruct s as [|c0 s1]; [reflexivity|].
  destruct (code c0 <? 0x80)%N eqn:Hc.
  - cbn [Json.appendString]. rewrite Hc, <- !app_assoc.
    rewrite compact_escape_byte by done.
    rewrite (IH (length s1)); [done| simpl in Hn; lia | done].
  - rewrite appendString_high by done.
    destruct (Utf8.rune_split (c0 :: s1)) as [[r t]|] eqn:Hr.
    + destruct (rune_split_spec _ _ _ Hr) as (Hs & Hl & Hall).
      rewrite <- !app_assoc, (compact_enc_rune r t) by (by rewrite <- Hs).
      rewrite (IH (length t)); [done| | done].
      rewrite Hn, Hs, length_app. lia.
    + change (Json.backslash :: "ufffd" ++ ?a) with
        (Json.backslash :: "u"%char :: "f"%char :: "f"%char :: "f"%char :: "d"%char :: a).
      cbn [app]. rewrite compact_ufffd.
      rewrite (IH (length s1)); [done| simpl in Hn; lia | done].
Qed.

Lemma compact_open_quote (Y : bytes) :
  Json.compact_go false (dquote :: Y) = dquote :: Json.compact_go true Y.
Proof. reflexivity. Qed.

Lemma compact_quote (s rest : bytes) :
  Json.compact_go false (Json.quote s ++ rest)
  = Json.quote s ++ Json.compact_go false rest.
Proof.
  unfold Json.quote. cbn [app]. rewrite <- !app_assoc. cbn [app].
  by rewrite compact_open_quote, compact_appendString.
Qed.

(** ** Decimal integers *)

Lemma code_digit (d : N) : (d < 10)%N → code (Strconv.digit d) = (48 + d)%N.
Proof. intros H. unfold Strconv.digit. apply code_of_N. lia. Qed.

Lemma is_digit_digit (d : N) : (d < 10)%N → is_digit (Strconv.digit d) = true.
Proof.
  intros H. unfold is_digit, in_range. rewrite code_digit by done.
  apply andb_true_iff. split; apply N.leb_le; lia.
Qed.

Lemma is_digit_code (c : ascii) :
  is_digit c = true ↔ (48 <= code c <= 57)%N.
Proof.
  unfold is_digit, in_range. rewrite andb_true_iff, !N.leb_le. tauto.
Qed.

Lemma digits_value_app (a : N) (x y : bytes) :
  Strconv.digits_value a (x ++ y)
  = Strconv.digits_value a x ≫= λ a', Strconv.digits_value a' y.
Proof.
  revert a. induction x as [|c x IH]; intros a; [done|].
  cbn [app Strconv.digits_value]. destruct (is_digit c); [apply IH|done].
Qed.

Lemma format_go_small (n : N) (acc : bytes) :
  (n < 10)%N →
  ∃ d ds,
    Strconv.digit n :: acc = d :: ds ++ acc
    ∧ Forall (λ c, is_digit c = true) (d :: ds)
    ∧ (n ≠ 0%N → d ≠ "0"%char)
    ∧ (n = 0%N → d = "0"%char ∧ ds = [])
    ∧ ∀ a, Strconv.digits_value a (d :: ds) = Some (a * 10 ^ N.of_nat (S (length ds)) + n)%N.
Proof.
  intros Hn. exists (Strconv.digit n), []. split_and!.
  - done.
  - constructor; [|done]. by apply is_digit_digit.
  - intros H0 Hd. apply (f_equal code) in Hd. rewrite code_digit in Hd by lia.
    change (code "0"%char) with 48%N in Hd. lia.
  - by intros ->.
  - intros a. cbn. rewrite is_digit_digit by lia. rewrite code_digit by lia.
    f_equal. lia.
Qed.

Lemma format_go_S (f : nat) (n : N) (acc : bytes) :
  Strconv.format_go (S f) n acc
  = if (n <? 10)%N then Strconv.digit (n mod 10) :: acc
    else Strconv.format_go f (n / 10) (Strconv.digit (n mod 10) :: acc).
Proof. reflexivity. Qed.

Lemma format_go_spec (f : nat) (n : N) (acc : bytes) :
  (n < 2 ^ N.of_nat (S f))%N →
  ∃ d ds,
    Strconv.format_go (S f) n acc = d :: ds ++ acc
    ∧ Forall (λ c, is_digit c = true) (d :: ds)
    ∧ (n ≠ 0%N → d ≠ "0"%char)
    ∧ (n = 0%N → d = "0"%char ∧ ds = [])
    ∧ ∀ a, Strconv.digits_value a (d :: ds) = Some (a * 10 ^ N.of_nat (S (length ds)) + n)%N.
Proof.
  revert n acc. induction f as [|f IH]; intros n acc Hn.
  - change (2 ^ N.of_nat 1)%N with 2%N in Hn. rewrite format_go_S.
    assert (n mod 10 = n)%N as -> by (apply N.mod_small; lia).
    assert ((n <? 10)%N = true) as -> by (apply N.ltb_lt; lia).
    apply format_go_small. lia.
  - rewrite format_go_S.
    assert (Hm : (n mod 10 < 10)%N) by (apply N.mod_lt; lia).
    destruct (n <? 10)%N eqn:E.
    + apply N.ltb_lt in E.
      assert (n mod 10 = n)%N as -> by (apply N.mod_small; lia).
      by apply format_go_small.
    + apply N.ltb_ge in E.
      assert (Hq : (n / 10 < 2 ^ N.of_nat (S f))%N).
      { apply N.Div0.div_lt_upper_bound.
        rewrite (Nat2N.inj_succ (S f)), N.pow_succ_r' in Hn. lia. }
      assert (Hq0 : (n / 10 ≠ 0)%N).
      { intros H0. pose proof (N.div_mod n 10). lia. }
      destruct (IH (n / 10)%N (Strconv.digit (n mod 10) :: acc) Hq)
        as (d & ds & Heq & Hall & Hnz & _ & Hval).
      exists d, (ds ++ [Strconv.digit (n mod 10)]). split_and!.
      * rewrite Heq. by rewrite <- app_assoc.
      * rewrite app_comm_cons. apply Forall_app. split; [done|].
        constructor; [|done]. by apply is_digit_digit.
      * intros _. by apply Hnz.
      * intros ->. done.
      * intros a. rewrite app_comm_cons, digits_value_app, Hval. cbn.
        rewrite is_digit_digit by done. rewrite code_digit by done.
        f_equal. rewrite length_app. cbn [length].
        replace (N.of_nat (S (length ds + 1))) with (N.succ (N.of_nat (S (length ds)))) by lia.
        rewrite N.pow_succ_r'.
        assert (Hdm : n = (10 * (n / 10) + n mod 10)%N) by (by apply N.div_mod).
        generalize (10 ^ N.of_nat (S (length ds)))%N. intros p.
        rewrite (N.add_comm 48), N.add_sub.
        rewrite Hdm at 3. ring.
Qed.

Lemma FormatUint_spec (n : N) :
  ∃ d ds,
    Strconv.FormatUint n = d :: ds
    ∧ Forall (λ c, is_digit c = true) (d :: ds)
    ∧ (n ≠ 0%N → d ≠ "0"%char)
    ∧ (n = 0%N → d = "0"%char ∧ ds = [])
    ∧ Strconv.digits_value 0 (d :: ds) = Some n.
Proof.
  unfold Strconv.FormatUint.
  destruct (format_go_spec (N.to_nat (N.log2 n)) n []) as (d & ds & Heq & H1 & H2 & H3 & H4).
  - rewrite Nat2N.inj_succ, N2Nat.id.
    destruct (decide (n = 0%N)) as [->|]; [done|].
    apply N.log2_spec. lia.
  - exists d, ds. rewrite app_nil_r in Heq. by split_and!.
Qed.

Lemma ParseUint_FormatUint (n : N) : Strconv.ParseUint (Strconv.FormatUint n) = Some n.
Proof.
  destruct (FormatUint_spec n) as (d & ds & -> & _ & _ & _ & H). exact H.
Qed.

Lemma digit_not_minus (d : ascii) : is_digit d = true → d ≠ "-"%char.
Proof. intros H ->. done. Qed.

Lemma ParseInt_FormatInt (z : Z) :
  (- 2 ^ 63 <= z < 2 ^ 63)%Z → Strconv.ParseInt (Strconv.FormatInt z) = Some z.
Proof.
  intros Hz. unfold Strconv.FormatInt, Strconv.ParseInt.
  assert (Hr : ((- 2 ^ 63 <=? z) && (z <? 2 ^ 63))%Z = true).
  { apply andb_true_iff. split; [apply Z.leb_le|apply Z.ltb_lt]; lia. }
  destruct (z <? 0)%Z eqn:E.
  - apply Z.ltb_lt in E. cbn [app]. rewrite ParseUint_FormatUint. cbn.
    replace (- Z.of_N (Z.to_N (- z)))%Z with z by lia. by rewrite Hr.
  - apply Z.ltb_ge in E.
    destruct (FormatUint_spec (Z.to_N z)) as (d & ds & Heq & Hall & _ & _ & H).
    rewrite Heq. apply Forall_cons in Hall as [Hd _].
    assert (d ≠ "-"%char) by (by apply digit_not_minus).
    assert (Hp : Strconv.ParseUint (d :: ds) = Some (Z.to_N z)) by exact H.
    destruct d as [[] [] [] [] [] [] [] []]; try done;
      rewrite Hp; cbn; rewrite Z2N.id by lia; by rewrite Hr.
Qed.

(** ** Numbers as the scanner reads them *)

Lemma lex_digits_run (ds rest : bytes) :
  Forall (λ c, is_digit c = true) ds →
  match rest with [] => False | c :: _ => is_digit c = false end →
  Json.lex_digits (ds ++ rest) = POk ds rest.
Proof.
  intros Hds Hrest. induction Hds as [|d ds Hd _ IH].
  - destruct rest as [|c r]; [done|]. cbn. by rewrite Hrest.
  - cbn [app Json.lex_digits]. by rewrite Hd, IH.
Qed.

Lemma lex_frac_none (rest : bytes) :
  Json.ends_number rest → Json.lex_frac rest = POk [] rest.
Proof.
  destruct rest as [|c r]; [done|]. intros (_ & H & _). cbn.
  by rewrite bool_decide_eq_false_2.
Qed.

Lemma lex_exp_none (rest : bytes) :
  Json.ends_number rest → Json.lex_exp rest = POk [] rest.
Proof.
  destruct rest as [|c r]; [done|]. intros (_ & _ & H1 & H2). cbn.
  by rewrite !bool_decide_eq_false_2.
Qed.

Lemma ends_number_not_digit (rest : bytes) :
  Json.ends_number rest →
  match rest with [] => False | c :: _ => is_digit c = false end.
Proof. destruct rest; [done|]. by intros (? & _). Qed.

Lemma lex_unsigned_FormatUint (n : N) (rest : bytes) :
  Json.ends_number rest →
  Json.lex_then Json.lex_int (Json.lex_then Json.lex_frac Json.lex_exp)
    (Strconv.FormatUint n ++ rest)
  = POk (Strconv.FormatUint n) rest.
Proof.
  intros Hrest.
  destruct (FormatUint_spec n) as (d & ds & -> & Hall & Hnz & Hz & _).
  unfold Json.lex_then at 1.
  assert (Hint : Json.lex_int ((d :: ds) ++ rest) = POk (d :: ds) rest).
  { cbn [app Json.lex_int]. case_bool_decide as Hd.
    - subst d. destruct (decide (n = 0%N)) as [Hn|Hn]; [|by destruct (Hnz Hn)].
      destruct (Hz Hn) as [_ ->]. done.
    - apply Forall_cons in Hall as [Hd' Hds]. rewrite Hd'.
      change (d :: ds ++ rest) with ((d :: ds) ++ rest).
      apply lex_digits_run; [by constructor|by apply ends_number_not_digit]. }
  rewrite Hint. cbn [pbind]. unfold Json.lex_then.
  rewrite lex_frac_none by done. cbn [pbind].
  rewrite lex_exp_none by done. cbn. by rewrite app_nil_r.
Qed.

Lemma lex_number_FormatInt (z : Z) (rest : bytes) :
  Json.ends_number rest →
  Json.lex_number (Strconv.FormatInt z ++ rest) = POk (Strconv.FormatInt z) rest.
Proof.
  intros Hrest. unfold Strconv.FormatInt. destruct (z <? 0)%Z.
  - cbn [app Json.lex_number]. rewrite bool_decide_eq_true_2 by done.
    by rewrite lex_unsigned_FormatUint.
  - pose proof (lex_unsigned_FormatUint (Z.to_N z) rest Hrest) as H.
    destruct (FormatUint_spec (Z.to_N z)) as (d & ds & Heq & Hall & _).
    rewrite Heq in *. apply Forall_cons in Hall as [Hd _].
    cbn [app Json.lex_number]. rewrite bool_decide_eq_false_2; [exact H|].
    by apply digit_not_minus.
Qed.

(** The first byte of a formatted integer. *)
Lemma FormatInt_head (z : Z) :
  ∃ c t, Strconv.FormatInt z = c :: t
         ∧ (c = "-"%char ∨ is_digit c = true)
         ∧ Forall (λ c, c = "-"%char ∨ is_digit c = true) (c :: t).
Proof.
  unfold Strconv.FormatInt. destruct (z <? 0)%Z.
  - destruct (FormatUint_spec (Z.to_N (- z))) as (d & ds & -> & Hall & _).
    exists "-"%char, (d :: ds). split; [done|]. split; [by left|].
    constructor; [by left|]. eapply Forall_impl; [exact Hall|]. naive_solver.
  - destruct (FormatUint_spec (Z.to_N z)) as (d & ds & -> & Hall & _).
    exists d, ds. split; [done|]. pose proof Hall as Hall'.
    apply Forall_cons in Hall' as [Hd _]. split; [by right|].
    eapply Forall_impl; [exact Hall|]. naive_solver.
Qed.

(** ** Reading back what [print] wrote *)

Lemma digit_cases (c : ascii) : is_digit c = true → c ∈ ("0123456789" : bytes).
Proof. by_bytes c. Qed.

Lemma skip_space_nonspace (c : ascii) (s : bytes) :
  Json.is_space c = false → Json.skip_space (c :: s) = c :: s.
Proof. intros H. cbn. by rewrite H. Qed.

Lemma parse_value_null (d : nat) (rest : bytes) :
  Json.parse_value d ("null" ++ rest) = POk Json.JNull rest.
Proof. by destruct d. Qed.

Lemma parse_value_true (d : nat) (rest : bytes) :
  Json.parse_value d ("true" ++ rest) = POk (Json.JBool true) rest.
Proof. by destruct d. Qed.

Lemma parse_value_false (d : nat) (rest : bytes) :
  Json.parse_value d ("false" ++ rest) = POk (Json.JBool false) rest.
Proof. by destruct d. Qed.

Lemma parse_value_quote (d : nat) (s : bytes) :
  Json.parse_value d (dquote :: s) = pmap Json.JString (Json.string_tail s).
Proof. by destruct d. Qed.

Lemma parse_value_number (d : nat) (c : ascii) (s : bytes) :
  c = "-"%char ∨ is_digit c = true →
  Json.parse_value d (c :: s) = pmap Json.JNumber (Json.lex_number (c :: s)).
Proof.
  intros [->|Hc]; [by destruct d|].
  apply digit_cases in Hc.
  repeat (apply elem_of_cons in Hc as [->|Hc]; [by destruct d|]).
  by apply elem_of_nil in Hc.
Qed.

Lemma parse_value_array (d : nat) (s : bytes) :
  Json.parse_value (S d) ("["%char :: s)
  = pmap Json.JArray (Json.parse_array (Json.parse_value d) s).
Proof. reflexivity. Qed.

Lemma parse_value_object (d : nat) (s : bytes) :
  Json.parse_value (S d) ("{"%char :: s)
  = pmap Json.JObject (Json.parse_object (Json.parse_value d) s).
Proof. reflexivity. Qed.

(** The first byte of a printed value starts a value. *)
Lemma print_head (d : nat) (v : Json.value) :
  Json.printable d v →
  ∃ c t, Json.print v = c :: t ∧ Json.is_space c = false
         ∧ c ≠ "]"%char ∧ c ≠ "}"%char.
Proof.
  destruct 1 as [d|d [|]|d z|d s|d l _|d l _];
    try (by eexists _, _; split; [reflexivity|]).
  destruct (FormatInt_head z) as (c & t & Heq & Hc & _).
  exists c, t. split; [done|].
  destruct Hc as [->|Hc]; [done|].
  apply digit_cases in Hc.
  repeat (apply elem_of_cons in Hc as [->|Hc]; [done|]).
  by apply elem_of_nil in Hc.
Qed.

Lemma ends_comma (s : bytes) : Json.ends_number (","%char :: s).
Proof. done. Qed.

Lemma ends_bracket (s : bytes) : Json.ends_number ("]"%char :: s).
Proof. done. Qed.

Lemma ends_brace (s : bytes) : Json.ends_number ("}"%char :: s).
Proof. done. Qed.

Lemma parse_elements_print {A : Type} (pv : bytes → pres A) (f : Json.value → A)
    (l : list Json.value) (x : Json.value) (rest : bytes) (fuel : nat) :
  length l < fuel →
  (∀ y r, y ∈ x :: l → Json.ends_number r → pv (Json.print y ++ r) = POk (f y) r) →
  Json.parse_elements pv fuel
    (Json.sep_by (List.map Json.print (x :: l)) ++ "]"%char :: rest)
  = POk (List.map f (x :: l)) rest.
Proof.
  revert x fuel. induction l as [|y l IH]; intros x fuel Hfuel Hpv.
  - destruct fuel as [|fuel]; [lia|]. cbn [List.map Json.sep_by Json.parse_elements].
    rewrite Hpv; [|by left|apply ends_bracket]. reflexivity.
  - destruct fuel as [|fuel]; [simpl in Hfuel; lia|].
    change (Json.sep_by (List.map Json.print (x :: y :: l)))
      with (Json.print x ++ "," ++ Json.sep_by (List.map Json.print (y :: l))).
    rewrite <- !app_assoc. cbn [Json.parse_elements].
    rewrite Hpv; [|by left|apply ends_comma]. cbn [pbind app Json.skip_space].
    change (Json.is_space ","%char) with false. cbn iota.
    rewrite bool_decide_eq_true_2 by done.
    rewrite IH.
    + reflexivity.
    + simpl in Hfuel. lia.
    + intros y' r Hy'. apply Hpv. by right.
Qed.

Lemma quote_app (k X : bytes) :
  Json.quote k ++ X = dquote :: Json.appendString k ++ dquote :: X.
Proof. unfold Json.quote. cbn [app]. by rewrite <- app_assoc. Qed.


Lemma parse_members_print {A : Type} (pv : bytes → pres A) (f : Json.value → A)
    (l : list (bytes * Json.value)) (kx : bytes * Json.value) (rest : bytes)
    (fuel : nat) :
  length l < fuel →
  (∀ y r, y ∈ kx :: l → Json.ends_number r → pv (Json.print y.2 ++ r) = POk (f y.2) r) →
  Json.parse_members pv fuel
    (Json.sep_by (List.map Json.print_member (kx :: l)) ++ "}"%char :: rest)
  = POk (List.map (λ y, (Utf8.coerce y.1, f y.2)) (kx :: l)) rest.
Proof.
  revert kx fuel. induction l as [|y l IH]; intros [k x] fuel Hfuel Hpv.
  - destruct fuel as [|fuel]; [lia|].
    cbn [List.map Json.sep_by Json.print_member].
    rewrite <- !app_assoc, quote_app. cbn [app Json.parse_members Json.skip_space].
    change (Json.is_space dquote) with false. cbn iota.
    rewrite bool_decide_eq_true_2 by done.
    rewrite string_tail_appendString. cbn [pbind Json.skip_space].
    change (Json.is_space ":"%char) with false. cbn iota.
    rewrite bool_decide_eq_true_2 by done.
    rewrite (Hpv (k, x)); [|by left|apply ends_brace]. reflexivity.
  - destruct fuel as [|fuel]; [simpl in Hfuel; lia|].
    change (Json.sep_by (List.map Json.print_member ((k, x) :: y :: l)))
      with (Json.print_member (k, x) ++ "," ++ Json.sep_by (List.map Json.print_member (y :: l))).
    cbn [Json.print_member].
    rewrite <- !app_assoc, quote_app. cbn [app Json.parse_members Json.skip_space].
    change (Json.is_space dquote) with false. cbn iota.
    rewrite bool_decide_eq_true_2 by done.
    rewrite string_tail_appendString. cbn [pbind Json.skip_space].
    change (Json.is_space ":"%char) with false. cbn iota.
    rewrite bool_decide_eq_true_2 by done.
    rewrite (Hpv (k, x)); [|by left|apply ends_comma].
    cbn [pbind Json.skip_space].
    change (Json.is_space ","%char) with false. cbn iota.
    rewrite bool_decide_eq_true_2 by done.
    rewrite IH.
    + reflexivity.
    + simpl in Hfuel. lia.
    + intros y' r Hy'. apply Hpv. by right.
Qed.

Lemma sep_by_length (l : list bytes) :
  Forall (λ x, x ≠ []) l → length l ≤ length (Json.sep_by l).
Proof.
  induction 1 as [|x l Hx Hl IH]; [done|].
  destruct l as [|y l].
  - destruct x; [done|]. simpl. lia.
  - change (Json.sep_by (x :: y :: l)) with (x ++ "," ++ Json.sep_by (y :: l)).
    rewrite !length_app. simpl in *. lia.
Qed.

Lemma print_object_eq (l : list (bytes * Json.value)) :
  Json.print (Json.JObject l) = "{" ++ Json.sep_by (List.map Json.print_member l) ++ "}".
Proof.
  reflexivity.
Qed.

Lemma parse_value_print (d : nat) (v : Json.value) (rest : bytes) :
  Json.printable d v → Json.ends_number rest →
  Json.parse_value d (Json.print v ++ rest) = POk (Json.norm v) rest.
Proof.
  revert v rest. induction d as [|d IH]; intros v rest Hv Hrest.
  - inversion Hv; subst.
    + apply parse_value_null.
    + destruct b; [apply parse_value_true|apply parse_value_false].
    + destruct (FormatInt_head z) as (c & t & Heq & Hc & _).
      cbn [Json.print]. rewrite Heq. cbn [app].
      rewrite parse_value_number by done.
      change (c :: t ++ rest) with ((c :: t) ++ rest).
      rewrite <- Heq, lex_number_FormatInt by done. done.
    + cbn [Json.print]. rewrite quote_app.
      by rewrite parse_value_quote, string_tail_appendString.
  - inversion Hv as [?|??|??|??|? l Hl|? l Hl]; subst.
    + apply parse_value_null.
    + destruct b; [apply parse_value_true|apply parse_value_false].
    + destruct (FormatInt_head z) as (c & t & Heq & Hc & _).
      cbn [Json.print]. rewrite Heq. cbn [app].
      rewrite parse_value_number by done.
      change (c :: t ++ rest) with ((c :: t) ++ rest).
      rewrite <- Heq, lex_number_FormatInt by done. done.
    + cbn [Json.print]. rewrite quote_app.
      by rewrite parse_value_quote, string_tail_appendString.
    + cbn [Json.print Json.norm]. rewrite <- !app_assoc. cbn [app].
      rewrite parse_value_array. unfold Json.parse_array.
      destruct l as [|x l]; [reflexivity|].
      apply Forall_cons in Hl as Hl'. destruct Hl' as [Hx Hl'].
      destruct (print_head _ _ Hx) as (c & t & Hc & Hsp & Hb & _).
      assert (Hs : ∃ s', Json.sep_by (List.map Json.print (x :: l)) ++ "]"%char :: rest = c :: s').
      { destruct l as [|y l].
        - cbn [List.map Json.sep_by]. rewrite Hc. by eexists.
        - change (Json.sep_by (List.map Json.print (x :: y :: l)))
            with (Json.print x ++ "," ++ Json.sep_by (List.map Json.print (y :: l))).
          rewrite Hc. by eexists. }
      destruct Hs as [s' Hs]. rewrite Hs at 1.
      rewrite skip_space_nonspace by done. rewrite bool_decide_eq_false_2 by done.
      rewrite (parse_elements_print _ Json.norm); [done| |].
      * rewrite length_app.
        assert (length (x :: l) ≤ length (Json.sep_by (List.map Json.print (x :: l)))).
        { rewrite <- (length_map Json.print). apply sep_by_length.
          apply Forall_map. eapply Forall_impl; [exact Hl|].
          intros y Hy. destruct (print_head _ _ Hy) as (? & ? & -> & _). done. }
        simpl in *. lia.
      * intros y r Hy Hr. apply IH; [|done].
        rewrite Forall_forall in Hl. by apply Hl.
    + rewrite print_object_eq. cbn [Json.norm]. rewrite <- !app_assoc. cbn [app].
      rewrite parse_value_object. unfold Json.parse_object.
      destruct l as [|[k x] l]; [reflexivity|].
      assert (Hs : ∃ s', Json.sep_by (List.map Json.print_member ((k, x) :: l)) ++ "}"%char :: rest = dquote :: s').
      { destruct l as [|y l].
        - cbn [List.map Json.sep_by Json.print_member]. rewrite <- !app_assoc, quote_app. by eexists.
        - change (Json.sep_by (List.map Json.print_member ((k, x) :: y :: l)))
            with (Json.print_member (k, x) ++ "," ++ Json.sep_by (List.map Json.print_member (y :: l))).
          cbn [Json.print_member]. rewrite <- !app_assoc, quote_app. by eexists. }
      destruct Hs as [s' Hs]. rewrite Hs at 1.
      rewrite skip_space_nonspace by done. rewrite bool_decide_eq_false_2 by done.
      rewrite (parse_members_print _ Json.norm).
      * cbn [pmap]. do 2 f_equal. apply map_ext. by intros [??].
      * rewrite length_app.
        assert (length ((k, x) :: l) ≤ length (Json.sep_by (List.map Json.print_member ((k, x) :: l)))).
        { rewrite <- (length_map Json.print_member). apply sep_by_length.
          apply Forall_map. apply Forall_forall. by intros [??] _. }
        simpl in *. lia.
      * intros y r Hy Hr. apply IH; [|done].
        rewrite Forall_forall in Hl. by apply Hl.
Qed.

Lemma printable_mono (d d' : nat) (v : Json.value) :
  Json.printable d v → d ≤ d' → Json.printable d' v.
Proof.
  revert d' v. induction d as [|d IH]; intros d' v Hv Hd.
  - inversion Hv; subst; constructor.
  - inversion Hv as [?|??|??|??|? l Hl|? l Hl]; subst; try constructor.
    + destruct d' as [|d']; [lia|]. constructor.
      eapply Forall_impl; [exact Hl|]. intros y Hy. apply IH; [done|lia].
    + destruct d' as [|d']; [lia|]. constructor.
      eapply Forall_impl; [exact Hl|]. intros y Hy. apply IH; [done|lia].
Qed.

Lemma value_ind' (P : Json.value → Prop) :
  P Json.JNull → (∀ b, P (Json.JBool b)) → (∀ lit, P (Json.JNumber lit)) →
  (∀ s, P (Json.JString s)) →
  (∀ l, Forall P l → P (Json.JArray l)) →
  (∀ l, Forall (λ kx, P kx.2) l → P (Json.JObject l)) →
  ∀ v, P v.
Proof.
  intros Hnull Hbool Hnum Hstr Harr Hobj. fix IH 1. intros [|b|lit|s|l|l].
  - exact Hnull.
  - apply Hbool.
  - apply Hnum.
  - apply Hstr.
  - apply Harr. induction l as [|x l IHl]; constructor; [apply IH|exact IHl].
  - apply Hobj. induction l as [|[k x] l IHl]; constructor; [apply IH|exact IHl].
Qed.

Lemma norm_valid (v : Json.value) :
  Json.valid_strings v = true → Json.norm v = v.
Proof.
  induction v as [|b|lit|s|l IH|l IH] using value_ind'; intros Hv; try done.
  - cbn in *. by rewrite coerce_Valid.
  - cbn [Json.norm Json.valid_strings] in *. f_equal.
    induction IH as [|x l Hx _ IHl]; [done|].
    cbn in Hv. apply andb_true_iff in Hv as [H1 H2].
    cbn. by rewrite Hx, IHl.
  - cbn [Json.norm Json.valid_strings] in *. f_equal.
    induction IH as [|[k x] l Hx _ IHl]; [done|].
    cbn in Hv. apply andb_true_iff in Hv as [H1 H2].
    apply andb_true_iff in H1 as [H0 H1].
    cbn in *. by rewrite coerce_Valid, Hx, IHl.
Qed.

(** ** [appendCompact] leaves what [print] wrote *)

Lemma compact_out_plain (l rest : bytes) :
  Forall (λ c, Json.is_space c = false ∧ c ≠ dquote) l →
  Json.compact_go false (l ++ rest) = l ++ Json.compact_go false rest.
Proof.
  induction 1 as [|c l [H1 H2] _ IH]; [done|].
  cbn [app Json.compact_go]. rewrite H1, bool_decide_eq_false_2 by done.
  by rewrite IH.
Qed.

Lemma digit_or_minus_plain (c : ascii) :
  c = "-"%char ∨ is_digit c = true → Json.is_space c = false ∧ c ≠ dquote.
Proof.
  intros [->|Hc]; [done|]. apply digit_cases in Hc.
  repeat (apply elem_of_cons in Hc as [->|Hc]; [done|]).
  by apply elem_of_nil in Hc.
Qed.

Lemma compact_sep_by (l : list bytes) (close : ascii) (rest : bytes) :
  Json.is_space close = false → close ≠ dquote →
  Forall (λ x, ∀ r, Json.compact_go false (x ++ r) = x ++ Json.compact_go false r) l →
  Json.compact_go false (Json.sep_by l ++ close :: rest)
  = Json.sep_by l ++ close :: Json.compact_go false rest.
Proof.
  intros Hc1 Hc2 Hl.
  assert (Hclose : ∀ r, Json.compact_go false (close :: r) = close :: Json.compact_go false r).
  { intros r. cbn. by rewrite Hc1, bool_decide_eq_false_2. }
  induction Hl as [|x l Hx Hl IH]; [apply Hclose|].
  destruct l as [|y l].
  - cbn [Json.sep_by]. by rewrite Hx, Hclose.
  - change (Json.sep_by (x :: y :: l)) with (x ++ "," ++ Json.sep_by (y :: l)).
    rewrite <- !app_assoc, Hx. cbn [app]. f_equal.
    change (Json.compact_go false (","%char :: ?s)) with (","%char :: Json.compact_go false s).
    by rewrite IH.
Qed.

Lemma compact_print (d : nat) (v : Json.value) (rest : bytes) :
  Json.printable d v →
  Json.compact_go false (Json.print v ++ rest)
  = Json.print v ++ Json.compact_go false rest.
Proof.
  revert v rest. induction d as [|d IH]; intros v rest Hv.
  - inversion Hv; subst.
    + reflexivity.
    + by destruct b.
    + cbn [Json.print]. apply compact_out_plain.
      destruct (FormatInt_head z) as (c & t & -> & _ & Hall).
      eapply Forall_impl; [exact Hall|]. apply digit_or_minus_plain.
    + apply compact_quote.
  - inversion Hv as [?|??|??|??|? l Hl|? l Hl]; subst.
    + reflexivity.
    + by destruct b.
    + cbn [Json.print]. apply compact_out_plain.
      destruct (FormatInt_head z) as (c & t & -> & _ & Hall).
      eapply Forall_impl; [exact Hall|]. apply digit_or_minus_plain.
    + apply compact_quote.
    + cbn [Json.print]. rewrite <- !app_assoc. cbn [app].
      change (Json.compact_go false ("["%char :: ?s)) with ("["%char :: Json.compact_go false s).
      f_equal. apply compact_sep_by; [done..|].
      apply Forall_map. eapply Forall_impl; [exact Hl|]. intros y Hy r. by apply IH.
    + rewrite print_object_eq. rewrite <- !app_assoc. cbn [app].
      change (Json.compact_go false ("{"%char :: ?s)) with ("{"%char :: Json.compact_go false s).
      f_equal. apply compact_sep_by; [done..|].
      apply Forall_map. eapply Forall_impl; [exact Hl|]. intros [k x] Hy r.
      cbn [Json.print_member]. rewrite <- !app_assoc, compact_quote. cbn [app].
      change (Json.compact_go false (":"%char :: ?s)) with (":"%char :: Json.compact_go false s).
      do 2 f_equal. by apply IH.
Qed.

Lemma parse_document_print (v : Json.value) :
  Json.printable Json.maxNestingDepth v →
  Json.parse_document (Json.print v) = Some (Json.norm v).
Proof.
  intros Hv. unfold Json.parse_document.
  by rewrite parse_value_print.
Qed.

Lemma Compact_print (v : Json.value) :
  Json.printable Json.maxNestingDepth v →
  Json.Compact (Json.print v) = Some (Json.print v).
Proof.
  intros Hv. unfold Json.Compact. rewrite parse_document_print by done.
  f_equal. rewrite <- (app_nil_r (Json.print v)) at 1.
  by rewrite (compact_print _ _ _ Hv), app_nil_r.
Qed.

Lemma raw_value_print (d : nat) (v : Json.value) (rest : bytes) :
  Json.printable d v → Json.ends_number rest →
  Json.raw_value d (Json.print v ++ rest) = POk (Json.norm v, Json.print v) rest.
Proof.
  intros Hv Hrest. unfold Json.raw_value.
  destruct (print_head _ _ Hv) as (c & t & Hc & Hsp & _).
  assert (Hskip : Json.skip_space (Json.print v ++ rest) = Json.print v ++ rest).
  { rewrite Hc. cbn [app]. by apply skip_space_nonspace. }
  rewrite Hskip, parse_value_print by done. do 2 f_equal.
  rewrite length_app.
  replace (length (Json.print v) + length rest - length rest) with (length (Json.print v)) by lia.
  by rewrite take_app_length.
Qed.

(** ** Base64 *)

Lemma below_64 (P : N → Prop) `{!∀ n, Decision (P n)} :
  forallb (λ n, bool_decide (P n)) (N.of_nat <$> seq 0 64) = true →
  ∀ n, (n < 64)%N → P n.
Proof.
  intros Hall n Hn. rewrite forallb_forall in Hall.
  eapply bool_decide_eq_true_1, Hall, list_elem_of_In.
  apply list_elem_of_fmap. exists (N.to_nat n). split; [lia|].
  apply elem_of_seq. lia.
Qed.

Lemma decodeMap_encodeStd (n : N) :
  (n < 64)%N → Base64.decodeMap (Base64.encodeStd n) = Some n.
Proof.
  revert n. apply (below_64 (λ n, Base64.decodeMap (Base64.encodeStd n) = Some n)).
  by vm_compute.
Qed.

Lemma encodeStd_not_pad (n : N) :
  (n < 64)%N → Base64.encodeStd n ≠ Base64.pad.
Proof.
  revert n. apply (below_64 (λ n, Base64.encodeStd n ≠ Base64.pad)).
  by vm_compute.
Qed.

Lemma encodeStd_not_newline (n : N) :
  (n < 64)%N → Base64.is_newline (Base64.encodeStd n) = false.
Proof.
  revert n. apply (below_64 (λ n, Base64.is_newline (Base64.encodeStd n) = false)).
  by vm_compute.
Qed.

Lemma encodeStd_ascii (n : N) :
  (n < 64)%N → (code (Base64.encodeStd n) <? 0x80)%N = true.
Proof.
  revert n. apply (below_64 (λ n, (code (Base64.encodeStd n) <? 0x80)%N = true)).
  by vm_compute.
Qed.

Ltac divmod := zify; Z.to_euclidean_division_equations; lia.

Lemma sextets_lt (v : N) :
  (v < 16777216)%N →
  (v / 262144 < 64 ∧ (v / 4096) mod 64 < 64 ∧ (v / 64) mod 64 < 64 ∧ v mod 64 < 64)%N.
Proof. intros H. divmod. Qed.

Lemma quantum_3 (a b c : ascii) :
  let v := (code a * 65536 + code b * 256 + code c)%N in
  Base64.quantum 3 (v / 262144) ((v / 4096) mod 64) ((v / 64) mod 64) (v mod 64)
  = [a; b; c].
Proof.
  intros v. unfold Base64.quantum. cbn [take].
  pose proof (code_lt_256 a). pose proof (code_lt_256 b). pose proof (code_lt_256 c).
  assert (Hv : (v / 262144 * 262144 + (v / 4096) mod 64 * 4096
                + (v / 64) mod 64 * 64 + v mod 64 = v)%N) by (subst v; divmod).
  rewrite Hv.
  assert (v / 65536 = code a)%N as -> by (subst v; divmod).
  assert ((v / 256) mod 256 = code b)%N as -> by (subst v; divmod).
  assert (v mod 256 = code c)%N as -> by (subst v; divmod).
  by rewrite !ascii_of_code.
Qed.

Lemma quantum_2 (a b : ascii) :
  let v := (code a * 65536 + code b * 256)%N in
  Base64.quantum 2 (v / 262144) ((v / 4096) mod 64) ((v / 64) mod 64) 0
  = [a; b].
Proof.
  intros v. unfold Base64.quantum. cbn [take].
  pose proof (code_lt_256 a). pose proof (code_lt_256 b).
  assert (Hv : (v / 262144 * 262144 + (v / 4096) mod 64 * 4096
                + (v / 64) mod 64 * 64 + 0 = v)%N) by (subst v; divmod).
  rewrite Hv.
  assert (v / 65536 = code a)%N as -> by (subst v; divmod).
  assert ((v / 256) mod 256 = code b)%N as -> by (subst v; divmod).
  by rewrite !ascii_of_code.
Qed.

Lemma quantum_1 (a : ascii) :
  let v := (code a * 65536)%N in
  Base64.quantum 1 (v / 262144) ((v / 4096) mod 64) 0 0 = [a].
Proof.
  intros v. unfold Base64.quantum. cbn [take].
  pose proof (code_lt_256 a).
  assert (Hv : (v / 262144 * 262144 + (v / 4096) mod 64 * 4096 + 0 * 64 + 0 = v)%N)
    by (subst v; divmod).
  rewrite Hv.
  assert (v / 65536 = code a)%N as -> by (subst v; divmod).
  by rewrite !ascii_of_code.
Qed.

Lemma EncodeToString_3 (a b c : ascii) (rest : bytes) :
  Base64.EncodeToString (a :: b :: c :: rest) = Base64.quad a b c ++ Base64.EncodeToString rest.
Proof. reflexivity. Qed.

Lemma value_lt (a b c : ascii) :
  (code a * 65536 + code b * 256 + code c < 16777216)%N.
Proof.
  pose proof (code_lt_256 a). pose proof (code_lt_256 b). pose proof (code_lt_256 c).
  lia.
Qed.

Lemma decode_quad (a b c : ascii) (tl : bytes) :
  Base64.decode_quanta (Base64.quad a b c ++ tl)
  = match tl with
    | [] => Some [a; b; c]
    | _ :: _ => t ← Base64.decode_quanta tl; Some ([a; b; c] ++ t)
    end.
Proof.
  unfold Base64.quad. cbn zeta.
  destruct (sextets_lt _ (value_lt a b c)) as (H0 & H1 & H2 & H3).
  cbn [app Base64.decode_quanta].
  rewrite !decodeMap_encodeStd by done. cbn [mbind option_bind].
  rewrite (quantum_3 a b c).
  destruct tl; [|done].
  by rewrite (decide_False (P := _ = Base64.pad)) by (by apply encodeStd_not_pad).
Qed.

Lemma decode_quanta_Encode (b : bytes) :
  Base64.decode_quanta (Base64.EncodeToString b) = Some b.
Proof.
  remember (length b) as n eqn:Hn. revert b Hn.
  induction n as [n IH] using lt_wf_ind. intros b Hn.
  destruct b as [|a [|b [|c rest]]].
  - reflexivity.
  - cbn [Base64.EncodeToString Base64.decode_quanta].
    pose proof (code_lt_256 a) as Ha.
    destruct (sextets_lt (code a * 65536)) as (H0 & H1 & _); [lia|].
    rewrite !decide_True by done.
    rewrite !decodeMap_encodeStd by done. cbn [mbind option_bind].
    by rewrite (quantum_1 a).
  - cbn [Base64.EncodeToString Base64.decode_quanta].
    pose proof (code_lt_256 a) as Ha. pose proof (code_lt_256 b) as Hb.
    destruct (sextets_lt (code a * 65536 + code b * 256)) as (H0 & H1 & H2 & _); [lia|].
    rewrite decide_True by done.
    rewrite decide_False by (by apply encodeStd_not_pad).
    rewrite !decodeMap_encodeStd by done. cbn [mbind option_bind].
    by rewrite (quantum_2 a b).
  - rewrite EncodeToString_3, decode_quad.
    rewrite (IH (length rest)); [|simpl in Hn; lia|done].
    destruct rest as [|a' rest']; [reflexivity|].
    destruct (Base64.EncodeToString (a' :: rest')) eqn:E; [|done].
    by destruct rest' as [|? [|? ?]].
Qed.

Lemma Encode_chars (b : bytes) :
  Forall (λ c, Base64.is_newline c = false ∧ (code c <? 0x80)%N = true)
    (Base64.EncodeToString b).
Proof.
  remember (length b) as n eqn:Hn. revert b Hn.
  induction n as [n IH] using lt_wf_ind. intros b Hn.
  assert (Hc : ∀ m, (m < 64)%N →
    Base64.is_newline (Base64.encodeStd m) = false
    ∧ (code (Base64.encodeStd m) <? 0x80)%N = true).
  { intros m Hm. split; [by apply encodeStd_not_newline|by apply encodeStd_ascii]. }
  destruct b as [|a [|b [|c rest]]].
  - constructor.
  - pose proof (code_lt_256 a).
    destruct (sextets_lt (code a * 65536)) as (K0 & K1 & _); [lia|].
    cbn [Base64.EncodeToString]. repeat (constructor; [by (apply Hc || done)|]).
    constructor.
  - pose proof (code_lt_256 a). pose proof (code_lt_256 b).
    destruct (sextets_lt (code a * 65536 + code b * 256)) as (K0 & K1 & K2 & _); [lia|].
    cbn [Base64.EncodeToString]. repeat (constructor; [by (apply Hc || done)|]).
    constructor.
  - rewrite EncodeToString_3.
    destruct (sextets_lt _ (value_lt a b c)) as (K0 & K1 & K2 & K3).
    apply Forall_app. split.
    + unfold Base64.quad. cbn zeta. repeat (constructor; [by apply Hc|]). constructor.
    + apply (IH (length rest)); [simpl in Hn; lia|done].
Qed.

Lemma DecodeString_Encode (b : bytes) :
  Base64.DecodeString (Base64.EncodeToString b) = Some b.
Proof.
  unfold Base64.DecodeString.
  assert (List.filter (λ c, negb (Base64.is_newline c)) (Base64.EncodeToString b)
          = Base64.EncodeToString b) as ->; [|apply decode_quanta_Encode].
  induction (Encode_chars b) as [|c l [Hc _] _ IH]; [done|].
  cbn. by rewrite Hc, IH.
Qed.

Lemma Valid_ascii (s : bytes) :
  Forall (λ c, (code c <? 0x80)%N = true) s → Utf8.Valid s = true.
Proof. induction 1 as [|c s Hc _ IH]; [done|]. cbn. by rewrite Hc. Qed.

Lemma Valid_Encode (b : bytes) : Utf8.Valid (Base64.EncodeToString b) = true.
Proof.
  apply Valid_ascii. eapply Forall_impl; [apply Encode_chars|]. by intros c [_ ?].
Qed.

(** ** The protocol's values as JSON trees *)

Import protocol.

Lemma decode_strings_value (vs : list bytes) :
  Json.decode_strings (strings_value vs) = Some vs.
Proof.
  unfold strings_value, Json.decode_strings.
  induction vs as [|v vs IH]; [done|]. cbn. cbn in IH. by rewrite IH.
Qed.

Lemma foldl_store_headers (l : list (bytes * list bytes)) (m : gmap bytes (list bytes)) :
  foldl (λ acc '(k, x), m ← acc; vs ← Json.decode_strings x; Some (<[k := vs]> m))
    (Some m) (List.map (λ '(k, vs), (k, strings_value vs)) l)
  = Some (foldl (λ m kv, <[kv.1 := kv.2]> m) m l).
Proof.
  revert m. induction l as [|[k vs] l IH]; intros m; [done|].
  cbn [List.map foldl]. rewrite decode_strings_value. cbn. apply IH.
Qed.

Lemma foldl_insert_list_to_map (l : list (bytes * list bytes)) :
  foldl (λ m kv, <[kv.1 := kv.2]> m) (∅ : gmap bytes (list bytes)) l
  = list_to_map (reverse l).
Proof.
  induction l as [|kv l IH] using rev_ind; [done|].
  rewrite foldl_app, reverse_app. cbn. by rewrite IH.
Qed.

Lemma decode_headers_value (h : gmap bytes (list bytes)) :
  Json.decode_headers ∅ (headers_value h) = Some h.
Proof.
  unfold headers_value, Json.decode_headers.
  rewrite foldl_store_headers, foldl_insert_list_to_map. f_equal.
  assert (Hp : reverse (merge_sort key_le (map_to_list h)) ≡ₚ map_to_list h).
  { rewrite reverse_Permutation. apply merge_sort_Permutation. }
  rewrite <- (list_to_map_to_list h) at 2.
  apply list_to_map_proper; [|exact Hp].
  rewrite Hp. apply NoDup_fst_map_to_list.
Qed.

Lemma printable_strings (d : nat) (vs : list bytes) :
  Json.printable (S d) (strings_value vs).
Proof.
  constructor. apply Forall_map, Forall_forall. intros v _. constructor.
Qed.

Lemma printable_headers (d : nat) (h : gmap bytes (list bytes)) :
  Json.printable (S (S d)) (headers_value h).
Proof.
  constructor. apply Forall_map, Forall_forall. intros [k vs] _.
  apply printable_strings.
Qed.

Lemma printable_request (d : nat) (req : HTTPRequest) :
  Json.printable (S (S (S d))) (request_value req).
Proof.
  constructor. repeat (constructor; [try apply printable_headers; constructor|]).
  constructor.
Qed.

Lemma printable_response (d : nat) (resp : HTTPResponse) :
  Json.printable (S (S (S d))) (response_value resp).
Proof.
  constructor. repeat (constructor; [try apply printable_headers; constructor|]).
  constructor.
Qed.

Lemma printable_welcome (d : nat) (w : WelcomePayload) :
  Json.printable (S d) (welcome_value w).
Proof. constructor. repeat (constructor; [constructor|]). constructor. Qed.

Lemma maxNestingDepth_S : ∃ d, Json.maxNestingDepth = S (S (S (S d))).
Proof. by eexists. Qed.

Lemma valid_strings_strings (vs : list bytes) :
  Json.valid_strings (strings_value vs) = forallb Utf8.Valid vs.
Proof.
  unfold strings_value. cbn [Json.valid_strings].
  induction vs as [|v vs IH]; [done|]. cbn. by rewrite IH.
Qed.

Lemma valid_strings_headers (h : gmap bytes (list bytes)) :
  valid_headers h = true → Json.valid_strings (headers_value h) = true.
Proof.
  unfold valid_headers, headers_value. cbn [Json.valid_strings].
  rewrite !forallb_forall. intros H [k x] Hin.
  apply in_map_iff in Hin as ([k' vs] & [= <- <-] & Hin).
  rewrite valid_strings_strings. apply (H (k', vs)).
  apply list_elem_of_In. apply list_elem_of_In in Hin.
  by rewrite merge_sort_Permutation in Hin.
Qed.

Lemma valid_strings_request (req : HTTPRequest) :
  valid_request req = true → Json.valid_strings (request_value req) = true.
Proof.
  unfold valid_request. rewrite !andb_true_iff. intros [[H1 H2] H3].
  unfold request_value, bytes_value. cbn [Json.valid_strings forallb].
  rewrite H1, H2, valid_strings_headers, Valid_Encode by done. reflexivity.
Qed.

Lemma valid_strings_response (resp : HTTPResponse) :
  valid_response resp = true → Json.valid_strings (response_value resp) = true.
Proof.
  unfold valid_response. rewrite !andb_true_iff. intros [H1 H3].
  unfold response_value, bytes_value. cbn [Json.valid_strings forallb].
  rewrite valid_strings_headers, Valid_Encode by done. reflexivity.
Qed.

Ltac eval_field_eq :=
  repeat match goal with
  | |- context [Json.field_eq ?a ?b] =>
      let r := eval vm_compute in (Json.field_eq a b) in
      change (Json.field_eq a b) with r
  end.

Lemma decode_request_value (req : HTTPRequest) :
  Json.decode_struct store_HTTPRequest (mkHTTPRequest [] [] ∅ []) (request_value req)
  = Some req.
Proof.
  unfold request_value, Json.decode_struct, Json.decode_fields, bytes_value.
  cbn [foldl]. unfold store_HTTPRequest. eval_field_eq.
  cbn [Json.decode_string Json.decode_bytes mbind option_bind
       Method Path Headers Body].
  rewrite decode_headers_value. cbn [mbind option_bind].
  rewrite DecodeString_Encode. cbn. by destruct req.
Qed.

Lemma decode_response_value (resp : HTTPResponse) :
  (- 2 ^ 63 ≤ StatusCode resp < 2 ^ 63)%Z →
  Json.decode_struct store_HTTPResponse (mkHTTPResponse 0 ∅ []) (response_value resp)
  = Some resp.
Proof.
  intros Hs.
  unfold response_value, Json.decode_struct, Json.decode_fields, bytes_value.
  cbn [foldl]. unfold store_HTTPResponse. eval_field_eq.
  cbn [Json.decode_int Json.decode_bytes mbind option_bind
       StatusCode RespHeaders RespBody].
  rewrite ParseInt_FormatInt by done. cbn [mbind option_bind].
  rewrite decode_headers_value. cbn [mbind option_bind].
  rewrite DecodeString_Encode. cbn. by destruct resp.
Qed.

Lemma printable_max (v : Json.value) (d : nat) :
  Json.printable d v → d ≤ Json.maxNestingDepth - 1 →
  Json.printable (Json.maxNestingDepth - 1) v ∧ Json.printable Json.maxNestingDepth v.
Proof.
  intros Hv Hd. split; (eapply printable_mono; [exact Hv|lia]).
Qed.

Lemma small_depth : 3 ≤ Json.maxNestingDepth - 1.
Proof. unfold Json.maxNestingDepth. lia. Qed.

(** [json.Unmarshal] reads back what [json.Marshal] wrote for a request
    whose strings are valid UTF-8. *)
Lemma Unmarshal_Marshal_HTTPRequest (req : HTTPRequest) :
  valid_request req = true →
  Unmarshal_HTTPRequest (Json.print (request_value req)) = inr req.
Proof.
  intros Hv. unfold Unmarshal_HTTPRequest, Unmarshal.
  destruct (printable_max _ 3 (printable_request 0 req) small_depth) as [_ Hp].
  rewrite parse_document_print by done.
  rewrite norm_valid by (by apply valid_strings_request).
  by rewrite decode_request_value.
Qed.

Lemma Unmarshal_Marshal_HTTPResponse (resp : HTTPResponse) :
  valid_response resp = true →
  Unmarshal_HTTPResponse (Json.print (response_value resp)) = inr resp.
Proof.
  intros Hv. unfold Unmarshal_HTTPResponse, Unmarshal.
  destruct (printable_max _ 3 (printable_response 0 resp) small_depth) as [_ Hp].
  rewrite parse_document_print by done.
  rewrite norm_valid by (by apply valid_strings_response).
  rewrite decode_response_value; [done|].
  unfold valid_response in Hv. apply andb_true_iff in Hv as [Hv _].
  by apply bool_decide_eq_true in Hv.
Qed.

(** ** The envelope on the wire *)

Lemma Marshal_Message_print (type : bytes) (v : Json.value) :
  Json.printable Json.maxNestingDepth v →
  Marshal_Message (mkMessage type (Json.print v))
  = inr (Json.print (envelope_value type v)).
Proof.
  intros Hv. unfold Marshal_Message, envelope_value. cbn [Payload Type_].
  rewrite print_object_eq. cbn [List.map Json.sep_by Json.print_member].
  assert (Hp : match Json.print v with
               | [] => Some "null"
               | _ :: _ => Json.Compact (Json.print v)
               end = Some (Json.print v)).
  { destruct (print_head _ _ Hv) as (c & t & Hc & _).
    rewrite <- (Compact_print v Hv). by rewrite Hc at 1. }
  rewrite Hp. f_equal. cbn [Json.print]. by rewrite <- !app_assoc.
Qed.

Lemma parse_top_envelope (type : bytes) (v : Json.value) (rest : bytes) :
  Json.printable (Json.maxNestingDepth - 1) v →
  parse_top (Json.print (envelope_value type v) ++ rest)
  = POk (TopObject [("type", (Json.JString (Utf8.coerce type), Json.quote type));
                    ("payload", (Json.norm v, Json.print v))]) rest.
Proof.
  intros Hv. unfold envelope_value. rewrite print_object_eq.
  rewrite <- !app_assoc. cbn [app]. unfold parse_top.
  rewrite skip_space_nonspace by done. rewrite bool_decide_eq_true_2 by done.
  unfold Json.parse_object.
  set (l := [("type", Json.JString type); ("payload", v)]).
  assert (Hs : ∃ s', Json.sep_by (List.map Json.print_member l) ++ "}"%char :: rest
                     = dquote :: s').
  { subst l. cbn [List.map Json.sep_by Json.print_member].
    rewrite <- !app_assoc, quote_app. by eexists. }
  destruct Hs as [s' Hs]. rewrite Hs at 1.
  rewrite skip_space_nonspace by done. rewrite bool_decide_eq_false_2 by done.
  subst l.
  rewrite (parse_members_print _ (λ y, (Json.norm y, Json.print y))).
  - reflexivity.
  - rewrite length_app. simpl. lia.
  - intros [k x] r Hy Hr. cbn [snd]. apply raw_value_print; [|done].
    apply elem_of_cons in Hy as [[= -> ->]|Hy]; [constructor|].
    apply elem_of_cons in Hy as [[= -> ->]|Hy]; [done|].
    by apply elem_of_nil in Hy.
Qed.

Lemma decode_Message_envelope (type : bytes) (v : Json.value) :
  decode_Message
    (TopObject [("type", (Json.JString (Utf8.coerce type), Json.quote type));
                ("payload", (Json.norm v, Json.print v))])
  = inr (mkMessage (Utf8.coerce type) (Json.print v)).
Proof.
  unfold decode_Message. cbn [foldl]. unfold store_Message. eval_field_eq.
  reflexivity.
Qed.

(** A message whose payload is a printed tree always marshals, and
    [WriteMessage] writes it, followed by a line feed, with one [Write]. *)
Lemma WriteMessage_print (w : Stream) (type : bytes) (v : Json.value) :
  Json.printable Json.maxNestingDepth v →
  WriteMessage w (mkMessage type (Json.print v))
  = stream_Write w (Json.print (envelope_value type v) ++ ["010"%char]).
Proof.
  intros Hv. unfold WriteMessage. by rewrite Marshal_Message_print.
Qed.

Lemma readValue_complete (buf : bytes) (r : list bytes) (t : top) (rest : bytes) :
  parse_top buf = POk t rest → readValue buf r = (inr t, r).
Proof. intros H. destruct r; cbn; by rewrite H. Qed.

Lemma readValue_first (chunk : bytes) (r : list bytes) :
  readValue [] (chunk :: r) = readValue chunk r.
Proof. reflexivity. Qed.

(** [ReadMessage] on a stream whose next chunk begins with an envelope
    returns it: the type coerced to valid UTF-8, the payload as written. *)
Lemma ReadMessage_envelope (type : bytes) (v : Json.value) (rest : bytes)
    (more out : list bytes) (wr : bool) :
  Json.printable (Json.maxNestingDepth - 1) v →
  ReadMessage (mkStream ((Json.print (envelope_value type v) ++ rest) :: more) out wr)
  = (inr (mkMessage (Utf8.coerce type) (Json.print v)), mkStream more out wr).
Proof.
  intros Hv. unfold ReadMessage. cbn [incoming outgoing writable].
  rewrite readValue_first.
  rewrite (readValue_complete _ _ _ _ (parse_top_envelope type v rest Hv)).
  by rewrite decode_Message_envelope.
Qed.

(** * Properties of the relay *)

(** ** [strings] *)

Lemma HasPrefix_spec (s p : bytes) :
  GoStrings.HasPrefix s p = true ↔ ∃ t, s = p ++ t.
Proof.
  revert s. induction p as [|c p IH]; intros s.
  - destruct s; cbn; naive_solver.
  - destruct s as [|d s]; cbn.
    + split; [done|]. by intros [t ?].
    + case_decide as Hd.
      * subst d. rewrite IH. split; intros [t Ht]; exists t; [by subst|congruence].
      * split; [done|]. intros [t Ht]. congruence.
Qed.

Lemma HasPrefix_app (p t : bytes) : GoStrings.HasPrefix (p ++ t) p = true.
Proof. apply HasPrefix_spec. by exists t. Qed.

Lemma TrimPrefix_app (p t : bytes) : GoStrings.TrimPrefix (p ++ t) p = t.
Proof.
  unfold GoStrings.TrimPrefix. rewrite HasPrefix_app. by rewrite drop_app_length.
Qed.

Lemma Index_unfold (s sub : bytes) :
  GoStrings.Index s sub =
    if GoStrings.HasPrefix s sub then Some 0
    else match s with
         | [] => None
         | _ :: s' => S <$> GoStrings.Index s' sub
         end.
Proof. by destruct s. Qed.


Lemma Index_None (s sub : bytes) :
  GoStrings.Index s sub = None ↔
    ∀ j, j ≤ length s → GoStrings.HasPrefix (drop j s) sub = false.
Proof.
  induction s as [|c s IH].
  - rewrite Index_unfold. destruct (GoStrings.HasPrefix [] sub) eqn:E.
    + split; [done|]. intros H. specialize (H 0 ltac:(done)). cbn [drop] in H. congruence.
    + split; [|done]. intros _ j Hj. by destruct j.
  - rewrite Index_unfold. destruct (GoStrings.HasPrefix (c :: s) sub) eqn:E.
    + split; [done|]. intros H. specialize (H 0 ltac:(simpl; lia)). cbn [drop] in H. congruence.
    + destruct (GoStrings.Index s sub) as [k|] eqn:Ek; cbn.
      * split; [done|]. intros H.
        assert (Some k = None); [|done]. apply IH. intros j Hj.
        apply (H (S j)). simpl. lia.
      * split; [|done]. intros _ [|j] Hj; [done|]. cbn [drop].
        apply (proj1 IH eq_refl). simpl in Hj. lia.
Qed.




Lemma Index_char_notin (c : ascii) (s : bytes) :
  c ∉ s → GoStrings.Index s [c] = None.
Proof.
  induction s as [|d s IH]; intros Hc; [reflexivity|].
  apply not_elem_of_cons in Hc as [Hd Hs].
  rewrite Index_unfold. cbn [GoStrings.HasPrefix].
  rewrite decide_False by done. by rewrite IH.
Qed.

Lemma Index_char_first (c : ascii) (s rest : bytes) :
  c ∉ s → GoStrings.Index (s ++ c :: rest) [c] = Some (length s).
Proof.
  induction s as [|d s IH]; intros Hc.
  - cbn [app length]. rewrite Index_unfold. cbn [GoStrings.HasPrefix].
    by rewrite decide_True.
  - apply not_elem_of_cons in Hc as [Hd Hs].
    cbn [app]. rewrite Index_unfold. cbn [GoStrings.HasPrefix].
    rewrite decide_False by done. by rewrite IH.
Qed.

(** The two shapes of a path with a first segment [seg]. *)
Lemma SplitN_segment_only (seg : bytes) :
  "/"%char ∉ seg → GoStrings.SplitN seg "/" 2 = [seg].
Proof. intros H. cbn [GoStrings.SplitN]. by rewrite Index_char_notin. Qed.

Lemma SplitN_segment_rest (seg rest : bytes) :
  "/"%char ∉ seg → GoStrings.SplitN (seg ++ "/" ++ rest) "/" 2 = [seg; rest].
Proof.
  intros H. cbn [GoStrings.SplitN app]. rewrite Index_char_first by done.
  rewrite take_app_length. do 2 f_equal.
  change (seg ++ "/"%char :: rest) with (seg ++ ["/"%char] ++ rest).
  rewrite app_assoc. cbn [length].
  replace (length seg + 1) with (length (seg ++ ["/"%char])) by (rewrite length_app; simpl; lia).
  by rewrite drop_app_length.
Qed.

(** ** The registry *)

Lemma range_clients_go (l : list (bytes * server.ClientInfo)) (k0 : bytes) (n0 : nat) :
  (foldl (λ '(_, count) '(key, _), (key, S count)) (k0, n0) l).2 = n0 + length l.
Proof.
  revert k0 n0. induction l as [|[k v] l IH]; intros k0 n0; cbn; [lia|].
  rewrite IH. lia.
Qed.

Lemma range_clients_count (m : gmap bytes server.ClientInfo) :
  (server.range_clients m).2 = size m.
Proof.
  unfold server.range_clients. rewrite range_clients_go.
  by rewrite length_map_to_list.
Qed.

Lemma range_clients_singleton (k : bytes) (v : server.ClientInfo) :
  server.range_clients {[k := v]} = (k, 1).
Proof. unfold server.range_clients. by rewrite map_to_list_singleton. Qed.

(** ** One round trip *)

Lemma ReadMessage_outgoing (st : Stream) :
  outgoing (ReadMessage st).2 = outgoing st ∧ writable (ReadMessage st).2 = writable st.
Proof.
  unfold ReadMessage. destruct (readValue [] (incoming st)) as [[e|t] r]; by cbn.
Qed.

Lemma NewRequestMessage_eq (req : HTTPRequest) :
  NewRequestMessage req = inr (mkMessage MsgTypeRequest (Json.print (request_value req))).
Proof. reflexivity. Qed.

Lemma NewResponseMessage_eq (resp : HTTPResponse) :
  NewResponseMessage resp
  = inr (mkMessage MsgTypeResponse (Json.print (response_value resp))).
Proof. reflexivity. Qed.

Lemma printable_request_max (req : HTTPRequest) :
  Json.printable (Json.maxNestingDepth - 1) (request_value req)
  ∧ Json.printable Json.maxNestingDepth (request_value req).
Proof. exact (printable_max _ 3 (printable_request 0 req) small_depth). Qed.

Lemma printable_response_max (resp : HTTPResponse) :
  Json.printable (Json.maxNestingDepth - 1) (response_value resp)
  ∧ Json.printable Json.maxNestingDepth (response_value resp).
Proof. exact (printable_max _ 3 (printable_response 0 resp) small_depth). Qed.

(** Every request and every response has a frame: building and marshalling
    its message cannot fail. *)
Lemma wire_request (req : HTTPRequest) :
  wire (NewRequestMessage req)
  = Some (Json.print (envelope_value MsgTypeRequest (request_value req)) ++ ["010"%char]).
Proof.
  rewrite NewRequestMessage_eq. unfold wire.
  by rewrite Marshal_Message_print by apply printable_request_max.
Qed.


Lemma WriteMessage_wire (st : Stream) (m : Message) (data : bytes) :
  wire (inr m) = Some data → WriteMessage st m = stream_Write st data.
Proof.
  unfold wire, WriteMessage. destruct (Marshal_Message m); [done|]. by intros [= <-].
Qed.

(** On a writable stream the round trip writes the frame of the request,
    whatever it reads back. *)
Lemma roundTrip_sends (clientID : bytes) (ci : server.ClientInfo) (req : HTTPRequest) :
  writable (server.stream ci) = true →
  ∃ data, wire (NewRequestMessage req) = Some data
          ∧ outgoing (server.roundTrip clientID ci req).2
            = outgoing (server.stream ci) ++ [data].
Proof.
  intros Hw. eexists. split; [apply wire_request|].
  unfold server.roundTrip. rewrite NewRequestMessage_eq.
  rewrite (WriteMessage_wire _ _ _ (wire_request req)).
  unfold stream_Write. rewrite Hw.
  set (st1 := mkStream _ _ _).
  pose proof (ReadMessage_outgoing st1) as [Ho _].
  destruct (ReadMessage st1) as [[e|m] st2]; cbn [snd] in Ho |- *; [done|].
  case_bool_decide; [done|].
  by destruct (Unmarshal_HTTPResponse _).
Qed.

Lemma Contains_char (c : ascii) (s : bytes) :
  GoStrings.Contains s [c] = true ↔ c ∈ s.
Proof.
  unfold GoStrings.Contains. split.
  - intros H. destruct (decide (c ∈ s)) as [|Hn]; [done|].
    by rewrite Index_char_notin in H.
  - intros H. apply list_elem_of_split_l in H as (pre & post & -> & Hpre).
    by rewrite Index_char_first.
Qed.

(** ** Routing *)

Lemma first_segment_only (seg : bytes) :
  "/"%char ∉ seg → server.first_segment ("/" ++ seg) = seg.
Proof.
  intros H. unfold server.first_segment.
  by rewrite TrimPrefix_app, SplitN_segment_only.
Qed.

Lemma first_segment_rest (seg rest : bytes) :
  "/"%char ∉ seg → server.first_segment ("/" ++ seg ++ "/" ++ rest) = seg.
Proof.
  intros H. unfold server.first_segment.
  by rewrite TrimPrefix_app, SplitN_segment_rest.
Qed.

Lemma SplitN_2_nonempty (s sep : bytes) : 0 < length (GoStrings.SplitN s sep 2).
Proof. cbn. destruct (GoStrings.Index s sep); simpl; lia. Qed.

(** The two branches of [route]. *)
Lemma route_explicit (m : gmap bytes server.ClientInfo) (r : http.Request) :
  server.looks_like_id (server.first_segment (http.URLPath r)) = true →
  server.route m r
  = inr (server.first_segment (http.URLPath r),
         match GoStrings.SplitN (GoStrings.TrimPrefix (http.URLPath r) "/") "/" 2 !! 1 with
         | Some part1 => if bool_decide (part1 ≠ []) then "/" ++ part1 else "/"
         | None => "/"
         end ++ server.query_suffix r).
Proof.
  intros H. unfold server.route, server.looks_like_id, server.first_segment in *.
  rewrite (bool_decide_eq_true_2 _ (SplitN_2_nonempty _ _)).
  cbn [andb]. rewrite H. cbn zeta. unfold server.query_suffix.
  destruct (bool_decide (http.RawQuery r ≠ [])); [done|]. by rewrite app_nil_r.
Qed.

Lemma route_fallback (m : gmap bytes server.ClientInfo) (r : http.Request) :
  server.looks_like_id (server.first_segment (http.URLPath r)) = false →
  server.route m r
  = let '(foundClientID, count) := server.range_clients m in
    if bool_decide (count = 0)
    then inl (http.Error "No agents connected" http.StatusServiceUnavailable)
    else if bool_decide (1 < count)
    then inl (http.Error
                "Multiple agents connected - please use full tunnel URL: http://server:port/<client-id>/path"
                http.StatusBadRequest)
    else inr (foundClientID, http.URLPath r ++ server.query_suffix r).
Proof.
  intros H. unfold server.route, server.looks_like_id, server.first_segment in *.
  rewrite (bool_decide_eq_true_2 _ (SplitN_2_nonempty _ _)).
  cbn [andb]. rewrite H. destruct (server.range_clients m) as [k n].
  destruct (bool_decide (n = 0)); [done|]. destruct (bool_decide (1 < n)); [done|].
  unfold server.query_suffix.
  destruct (bool_decide (http.RawQuery r ≠ [])); [done|]. by rewrite app_nil_r.
Qed.

(** C1. A request whose path is [/<id>] or [/<id>/<rest>], where [id] is
    at least 31 bytes long and contains a hyphen, is routed to the client
    [id] with the path [/<rest>] ([/] when there is no rest), followed by
    [?] and the query string when there is one: this is the result of
    [route]; and when [id] is registered and the body can be read, the
    handler builds the request for that client with this path and, on a
    writable stream, writes its frame to the stream of that client. *)
Theorem C1_explicit_client_id (s : server.Server) (r : http.Request) (id rest : bytes) :
  "/"%char ∉ id →
  http.URLPath r = "/" ++ id ++ "/" ++ rest
    ∨ (http.URLPath r = "/" ++ id ∧ rest = []) →
  31 ≤ length id →
  "-"%char ∈ id →
  let requestPath := "/" ++ rest ++ server.query_suffix r in
  server.route (server.clients s) r = inr (id, requestPath)
  ∧ ∀ ci body,
      server.clients s !! id = Some ci → http.ReqBody r = inr body →
      let httpReq :=
        mkHTTPRequest (http.ReqMethod r) requestPath (http.Header r) body in
      server.buildRequest s r = inr (id, ci, httpReq)
      ∧ (writable (server.stream ci) = true →
         ∃ data, wire (NewRequestMessage httpReq) = Some data
                 ∧ outgoing (server.roundTrip id ci httpReq).2
                   = outgoing (server.stream ci) ++ [data]).
Proof.
  intros Hid Hpath Hlen Hhyphen requestPath.
  assert (Hseg : server.first_segment (http.URLPath r) = id).
  { destruct Hpath as [->|[-> _]];
      [by apply first_segment_rest|by apply first_segment_only]. }
  assert (Hroute : server.route (server.clients s) r = inr (id, requestPath)).
  { rewrite route_explicit.
    - rewrite Hseg. do 2 f_equal. subst requestPath.
      destruct Hpath as [->|[-> ->]].
      + rewrite TrimPrefix_app, SplitN_segment_rest by done. cbn [lookup list_lookup].
        case_bool_decide as Hr; [done|].
        by subst rest.
      + by rewrite TrimPrefix_app, SplitN_segment_only by done.
    - rewrite Hseg. unfold server.looks_like_id.
      rewrite bool_decide_eq_true_2 by lia. by apply Contains_char. }
  split; [done|]. intros ci body Hci Hbody httpReq.
  split; [|by apply roundTrip_sends].
  unfold server.buildRequest. by rewrite Hroute, Hci, Hbody.
Qed.

(** C2. A request whose first segment is not taken for a client ID is
    refused with 503 when no session is registered and with 400 when more
    than one is; when exactly one is registered, it is routed to that one
    with the original path, followed by [?] and the query string when there
    is one. *)
Theorem C2_fallback_routing (s : server.Server) (r : http.Request) :
  server.looks_like_id (server.first_segment (http.URLPath r)) = false →
  let requestPath := http.URLPath r ++ server.query_suffix r in
  (size (server.clients s) = 0 →
   server.handleHTTPRequest s r
   = (http.Error "No agents connected" 503, s))
  ∧ (1 < size (server.clients s) →
     ∃ msg, server.handleHTTPRequest s r = (http.Error msg 400, s))
  ∧ (∀ id ci, server.clients s = {[id := ci]} →
       server.route (server.clients s) r = inr (id, requestPath)
       ∧ ∀ body, http.ReqBody r = inr body →
           let httpReq :=
             mkHTTPRequest (http.ReqMethod r) requestPath (http.Header r) body in
           server.buildRequest s r = inr (id, ci, httpReq)
           ∧ (writable (server.stream ci) = true →
              ∃ data, wire (NewRequestMessage httpReq) = Some data
                      ∧ outgoing (server.roundTrip id ci httpReq).2
                        = outgoing (server.stream ci) ++ [data])).
Proof.
  intros Hseg requestPath.
  pose proof (route_fallback (server.clients s) r Hseg) as Hroute.
  pose proof (range_clients_count (server.clients s)) as Hcount.
  split; [|split].
  - intros Hsize. unfold server.handleHTTPRequest, server.buildRequest.
    rewrite Hroute. destruct (server.range_clients _) as [k n]. cbn [snd] in Hcount.
    by rewrite bool_decide_eq_true_2 by lia.
  - intros Hsize. eexists. unfold server.handleHTTPRequest, server.buildRequest.
    rewrite Hroute. destruct (server.range_clients _) as [k n]. cbn [snd] in Hcount.
    rewrite bool_decide_eq_false_2 by lia.
    by rewrite bool_decide_eq_true_2 by lia.
  - intros id ci Hm.
    assert (Hr : server.route (server.clients s) r = inr (id, requestPath)).
    { rewrite Hroute, Hm, range_clients_singleton.
      rewrite bool_decide_eq_false_2 by lia.
      by rewrite bool_decide_eq_false_2 by lia. }
    split; [done|]. intros body Hbody httpReq.
    split; [|by apply roundTrip_sends].
    unfold server.buildRequest. rewrite Hr, Hm, lookup_singleton_eq.
    by rewrite Hbody.
Qed.

Lemma C1_explicit_client_id_witness :
  server.route (server.clients examples.one_session) examples.get_session_root
  = inr (examples.session_id, "/")
  ∧ ∃ ci, server.buildRequest examples.one_session examples.get_session_root
          = inr (examples.session_id, ci, mkHTTPRequest "GET" "/" ∅ "").
Proof.
  destruct (C1_explicit_client_id examples.one_session examples.get_session_root
              examples.session_id "") as [Hroute Hbuild].
  - compute_done.
  - by left.
  - compute_done.
  - compute_done.
  - split; [exact Hroute|]. eexists.
    exact (proj1 (Hbuild _ "" ltac:(by vm_compute) eq_refl)).
Defined.

Lemma C2_fallback_routing_witness :
  server.handleHTTPRequest examples.no_session examples.get_asset
  = (http.Error "No agents connected" 503, examples.no_session)
  ∧ server.route (server.clients examples.one_session) examples.get_asset
    = inr (examples.session_id, "/style.css?v=1").
Proof.
  split.
  - destruct (C2_fallback_routing examples.no_session examples.get_asset) as (H0 & _);
      [by vm_compute|]. by apply H0.
  - destruct (C2_fallback_routing examples.one_session examples.get_asset) as (_ & _ & H1);
      [by vm_compute|]. exact (proj1 (H1 _ _ eq_refl)).
Defined.

(** ** The response rewriter *)


(** The rewriter on a page with two [<head>] tags and the client [abc]. *)
Example rewriter_example :
  http.body (server.writeResponse "abc" examples.two_heads)
  = "<html><head>" ++ server.baseTag "abc" ++ "<title>t</title></head><head></head></html>".
Proof. by vm_compute. Qed.

(** * Properties of the agent *)

Lemma readValue_shorter (buf : bytes) (r : list bytes) :
  length (readValue buf r).2 ≤ length r.
Proof.
  revert buf. induction r as [|chunk r IH]; intros buf.
  - cbn. destruct (parse_top buf); [done..|]. by destruct (parse_top (buf ++ " ")).
  - cbn [readValue]. destruct (parse_top buf); [simpl; lia..|].
    specialize (IH (buf ++ chunk)). simpl. lia.
Qed.

(** A successful [ReadMessage] takes at least one chunk off the stream. *)
Lemma ReadMessage_consumes (st st' : Stream) (m : Message) :
  ReadMessage st = (inr m, st') → length (incoming st') < length (incoming st).
Proof.
  unfold ReadMessage. destruct (incoming st) as [|chunk r] eqn:E.
  - cbn. done.
  - rewrite readValue_first. pose proof (readValue_shorter chunk r) as H.
    destruct (readValue chunk r) as [[e|t] rest]; [done|].
    intros [= _ <-]. cbn in *. lia.
Qed.

Lemma stream_Write_incoming (st : Stream) (data : bytes) :
  incoming (stream_Write st data).2 = incoming st.
Proof. unfold stream_Write. by destruct (writable st). Qed.

Lemma WriteMessage_incoming (st : Stream) (m : Message) :
  incoming (WriteMessage st m).2 = incoming st.
Proof.
  unfold WriteMessage. destruct (Marshal_Message m); [done|].
  apply stream_Write_incoming.
Qed.

(** A turn that goes round again has taken a chunk off the stream. *)
Lemma iteration_consumes (a : agent.Agent) (c : agent.HTTPClient) (st st' : Stream) :
  agent.iteration a c st = agent.Continue st' →
  length (incoming st') < length (incoming st).
Proof.
  unfold agent.iteration.
  destruct (ReadMessage st) as [[e|m] st1] eqn:E.
  { by destruct (bool_decide _). }
  apply ReadMessage_consumes in E.
  case_bool_decide; [by intros [= <-]|].
  destruct (Unmarshal_HTTPRequest _) as [?|httpReq]; [by intros [= <-]|].
  destruct (NewResponseMessage _) as [?|respMsg]; [by intros [= <-]|].
  pose proof (WriteMessage_incoming st1 respMsg) as Hw.
  destruct (WriteMessage st1 respMsg) as [[err|] st2]; [done|].
  intros [= <-]. cbn in Hw. by rewrite Hw.
Qed.

(** The receive loop returns: the bound on its turns is never reached. *)
Lemma handleRequests_go_returns (fuel : nat) (a : agent.Agent) (c : agent.HTTPClient)
    (st : Stream) :
  length (incoming st) < fuel → is_Some (agent.handleRequests_go fuel a c st).
Proof.
  revert st. induction fuel as [|fuel IH]; intros st Hf; [lia|].
  cbn [agent.handleRequests_go].
  destruct (agent.iteration a c st) as [st'|err st'] eqn:E; [|done].
  apply IH. apply iteration_consumes in E. lia.
Qed.

Lemma handleRequests_returns (a : agent.Agent) (c : agent.HTTPClient) (st : Stream) :
  is_Some (agent.handleRequests a c st).
Proof. apply handleRequests_go_returns. lia. Qed.

(** Enough fuel: more of it changes nothing. *)
Lemma handleRequests_go_fuel (fuel fuel' : nat) (a : agent.Agent) (c : agent.HTTPClient)
    (st : Stream) :
  length (incoming st) < fuel → fuel ≤ fuel' →
  agent.handleRequests_go fuel' a c st = agent.handleRequests_go fuel a c st.
Proof.
  revert fuel' st. induction fuel as [|fuel IH]; intros fuel' st Hf Hle; [lia|].
  destruct fuel' as [|fuel']; [lia|]. cbn [agent.handleRequests_go].
  destruct (agent.iteration a c st) as [st'|err st'] eqn:E; [|done].
  apply IH; [|lia]. apply iteration_consumes in E. lia.
Qed.


(** C10. A message whose type is not [request], or whose payload does not
    decode as a request, is skipped: the turn writes nothing, the loop goes
    round again from the stream as the read left it, and the loop as a whole
    returns the result of that continuation. *)
Theorem C10_skipped_messages (a : agent.Agent) (c : agent.HTTPClient)
    (st st' : Stream) (msg : Message) :
  ReadMessage st = (inr msg, st') →
  Type_ msg ≠ MsgTypeRequest
  ∨ (∃ err, Unmarshal_HTTPRequest (Payload msg) = inl err) →
  agent.iteration a c st = agent.Continue st'
  ∧ outgoing st' = outgoing st
  ∧ agent.handleRequests a c st = agent.handleRequests a c st'
  ∧ is_Some (agent.handleRequests a c st).
Proof.
  intros Hread Hskip.
  assert (agent.iteration a c st = agent.Continue st') as Hit.
  { unfold agent.iteration. rewrite Hread.
    case_bool_decide as Ht; [done|].
    destruct Hskip as [?|[err He]]; [by destruct Ht|]. by rewrite He. }
  split_and!; [done| |..].
  - destruct (ReadMessage_outgoing st) as [Ho _]. by rewrite Hread in Ho.
  - unfold agent.handleRequests at 1. cbn [agent.handleRequests_go].
    rewrite Hit. apply handleRequests_go_fuel; [lia|].
    apply iteration_consumes in Hit. lia.
  - apply handleRequests_returns.
Qed.



Lemma C10_skipped_messages_witness :
  agent.iteration examples.local_agent examples.refusing_client (mkStream [examples.heartbeat_frame] [] true)
  = agent.Continue (mkStream [] [] true)
  ∧ agent.handleRequests examples.local_agent examples.refusing_client (mkStream [examples.heartbeat_frame] [] true)
    = Some (None, mkStream [] [] true).
Proof.
  destruct (C10_skipped_messages examples.local_agent examples.refusing_client
              (mkStream [examples.heartbeat_frame] [] true) (mkStream [] [] true)
              (mkMessage MsgTypeHeartbeat "{}"))
    as (Hit & _ & Hrun & _); [by vm_compute|by left|].
  split; [exact Hit|]. rewrite Hrun. by vm_compute.
Defined.

(** * Properties of the handshake *)

Lemma NewWelcomeMessage_eq (clientID tunnelURL : bytes) :
  NewWelcomeMessage clientID tunnelURL
  = inr (mkMessage MsgTypeWelcome
           (Json.print (welcome_value (mkWelcomePayload clientID tunnelURL)))).
Proof. reflexivity. Qed.

Lemma printable_welcome_max (w : WelcomePayload) :
  Json.printable (Json.maxNestingDepth - 1) (welcome_value w)
  ∧ Json.printable Json.maxNestingDepth (welcome_value w).
Proof. exact (printable_max _ 1 (printable_welcome 0 w) ltac:(vm_compute; lia)). Qed.

Lemma wire_welcome (clientID tunnelURL : bytes) :
  wire (NewWelcomeMessage clientID tunnelURL)
  = Some (Json.print (envelope_value MsgTypeWelcome
            (welcome_value (mkWelcomePayload clientID tunnelURL))) ++ ["010"%char]).
Proof.
  rewrite NewWelcomeMessage_eq. unfold wire.
  by rewrite Marshal_Message_print by apply printable_welcome_max.
Qed.

(** C6. Without a hello message read from the stream the registry is left as
    it was.  After one, the session is stored under the fresh client ID while
    the handler waits for the connection to end, every other entry is kept,
    and the deferred call removes the entry when the connection is done; if
    the welcome message cannot be written, the entry is removed at once. *)
Theorem C6_handshake_registry (s : server.Server) (conn : server.Connection) :
  let clientID := server.uuid conn in
  (server.hello_read conn = None →
   server.handleAgentConnection s conn = server.Returned s)
  ∧ (∀ st, server.hello_read conn = Some st →
       (writable st = false →
        ∃ s', server.handleAgentConnection s conn = server.Returned s'
              ∧ server.clients s' = delete clientID (server.clients s))
       ∧ (writable st = true →
          ∃ s' done data,
            server.handleAgentConnection s conn = server.Blocked s' done
            ∧ wire (NewWelcomeMessage clientID
                      ("http://localhost:" ++ Strconv.FormatInt (server.Port s + 1)
                       ++ "/" ++ clientID)) = Some data
            ∧ server.clients s' !! clientID
              = Some (server.mkClientInfo
                        (mkStream (incoming st) (outgoing st ++ [data]) true))
            ∧ (∀ k, k ≠ clientID → server.clients s' !! k = server.clients s !! k)
            ∧ ∀ s'', server.clients (done s'') = delete clientID (server.clients s''))).
Proof.
  intros clientID. unfold server.hello_read, server.handleAgentConnection.
  destruct (server.AcceptStream conn) as [e|st0]; [done|].
  destruct (ReadMessage st0) as [[e|helloMsg] st1]; [done|].
  destruct (decide (Type_ helloMsg = MsgTypeHello)) as [Ht|Ht].
  2:{ rewrite (bool_decide_false _ Ht), bool_decide_true by done. done. }
  rewrite (bool_decide_true _ Ht), bool_decide_false by (intros Hne; by apply Hne).
  split; [done|]. intros st [= <-].
  fold clientID.
  set (tunnelURL := "http://localhost:" ++ _).
  pose proof (wire_welcome clientID tunnelURL) as Hdata.
  rewrite NewWelcomeMessage_eq in Hdata |- *.
  rewrite (WriteMessage_wire _ _ _ Hdata). unfold stream_Write.
  split; intros Hw; rewrite Hw.
  - eexists. split; [done|].
    cbn [server.clients server.Store server.Delete]. by rewrite delete_insert_eq.
  - eexists _, _, _. split; [done|]. split; [exact Hdata|].
    cbn [server.clients server.Store server.Delete server.set_stream].
    rewrite insert_insert_eq, lookup_insert_eq. split; [done|]. split; [|done].
    intros k Hk. by rewrite lookup_insert_ne.
Qed.

(** ** The copied headers *)

Lemma Header_Add_all (w : gmap bytes (list bytes)) (key : bytes) (values : list bytes) :
  http.CanonicalHeaderKey key = key →
  foldl (λ w value, http.Header_Add w key value) w values
  = match values with
    | [] => w
    | _ => <[key := default [] (w !! key) ++ values]> w
    end.
Proof.
  intros Hk. revert w. induction values as [|v vs IH]; intros w; [done|].
  cbn [foldl]. rewrite IH. unfold http.Header_Add. rewrite Hk.
  destruct vs as [|v' vs]; [done|].
  rewrite lookup_insert_eq, insert_insert_eq. cbn [default id]. by rewrite <- app_assoc.
Qed.

Lemma copy_lookup (l : list (bytes * list bytes)) (w : gmap bytes (list bytes)) (k : bytes) :
  NoDup l.*1 →
  (∀ kv, kv ∈ l → http.CanonicalHeaderKey kv.1 = kv.1 ∧ w !! kv.1 = None) →
  foldl (λ w '(key, values), foldl (λ w value, http.Header_Add w key value) w values)
    w l !! k
  = match (list_to_map l : gmap bytes (list bytes)) !! k with
    | Some [] => None
    | Some values => Some values
    | None => w !! k
    end.
Proof.
  revert w. induction l as [|[key values] l IH]; intros w Hnd Hl; [done|].
  apply NoDup_cons in Hnd as [Hkey Hnd]. cbn [foldl].
  destruct (Hl (key, values)) as [Hc Hw]; [left|]. cbn [fst] in Hc, Hw.
  rewrite Header_Add_all by done. rewrite IH; [|done|].
  - cbn [list_to_map foldr]. destruct (decide (k = key)) as [->|Hne].
    + rewrite lookup_insert_eq, (not_elem_of_list_to_map_1 _ _ Hkey).
      destruct values as [|v vs]; [done|]. by rewrite lookup_insert_eq, Hw.
    + rewrite lookup_insert_ne by done.
      destruct (list_to_map l !! k) as [vs|]; [done|].
      destruct values; [done|]. by rewrite lookup_insert_ne.
  - intros kv Hkv. destruct (Hl kv) as [Hc' Hw']; [by right|]. split; [done|].
    destruct values; [done|]. rewrite lookup_insert_ne; [done|].
    intros Heq. apply Hkey. apply list_elem_of_fmap. by exists kv.
Qed.

(** With canonical keys, the copy has no [Content-Length], and every other
    key has the values it had; a key with no value at all is not copied. *)
Theorem copyHeaders_canonical (h : gmap bytes (list bytes)) (k : bytes) :
  (∀ key, is_Some (h !! key) → http.CanonicalHeaderKey key = key) →
  server.copyHeaders h !! k
  = if bool_decide (k = "Content-Length") then None
    else match h !! k with
         | Some [] => None
         | other => other
         end.
Proof.
  intros Hc. unfold server.copyHeaders. rewrite copy_lookup.
  - rewrite list_to_map_to_list. case_bool_decide as Hk.
    + subst k. by rewrite lookup_delete_eq.
    + rewrite lookup_delete_ne by done. by destruct (h !! k) as [[|]|].
  - apply NoDup_fst_map_to_list.
  - intros [key values] Hkv. apply elem_of_map_to_list in Hkv. cbn [fst].
    split; [|done]. apply Hc. apply lookup_delete_Some in Hkv as [_ ->]. by eexists.
Qed.

(** C7. A response whose length header is spelt [content-length] keeps it:
    the relay deletes the key [Content-Length] only, and [Header.Add] then
    files the value under [Content-Length].  The reply announces the 13
    bytes of the original body and carries the 62 of the rewritten one. *)
Theorem C7_stale_content_length :
  let reply := (server.handleHTTPRequest examples.one_session examples.get_session_root).1 in
  http.header reply !! ("Content-Length" : bytes) = Some ["13" : bytes]
  ∧ http.body reply = "<head>" ++ server.baseTag examples.session_id ++ "</head>"
  ∧ length (http.body reply) = 62.
Proof. by vm_compute. Qed.

(** * Properties of the session mutex *)














(** * The round trip and the framing *)

Lemma transmit_print (type : bytes) (v : Json.value) :
  Json.printable (Json.maxNestingDepth - 1) v →
  Json.printable Json.maxNestingDepth v →
  transmit (inr (mkMessage type (Json.print v)))
  = inr (mkMessage (Utf8.coerce type) (Json.print v)).
Proof.
  intros Hv Hv'. unfold transmit. rewrite WriteMessage_print by done.
  unfold stream_Write. cbn [writable outgoing incoming app].
  by rewrite ReadMessage_envelope.
Qed.

(** C3. A request whose method, path and header strings are valid UTF-8 and
    a response whose header strings are valid UTF-8, whatever the bytes of
    their bodies, are read back from the message they were put in. *)
Theorem C3_round_trip (req : HTTPRequest) (resp : HTTPResponse) :
  (valid_request req = true →
   ∃ m, transmit (NewRequestMessage req) = inr m
        ∧ Type_ m = MsgTypeRequest
        ∧ Unmarshal_HTTPRequest (Payload m) = inr req)
  ∧ (valid_response resp = true →
     ∃ m, transmit (NewResponseMessage resp) = inr m
          ∧ Type_ m = MsgTypeResponse
          ∧ Unmarshal_HTTPResponse (Payload m) = inr resp).
Proof.
  split; intros Hvalid.
  - rewrite NewRequestMessage_eq, transmit_print by apply printable_request_max.
    eexists. split; [done|]. split; [done|]. by apply Unmarshal_Marshal_HTTPRequest.
  - rewrite NewResponseMessage_eq, transmit_print by apply printable_response_max.
    eexists. split; [done|]. split; [done|]. by apply Unmarshal_Marshal_HTTPResponse.
Qed.

Lemma C3_round_trip_witness :
  (∃ m, transmit (NewRequestMessage examples.post_form) = inr m
        ∧ Type_ m = MsgTypeRequest
        ∧ Unmarshal_HTTPRequest (Payload m) = inr examples.post_form)
  ∧ (∃ m, transmit (NewResponseMessage examples.not_found) = inr m
          ∧ Type_ m = MsgTypeResponse
          ∧ Unmarshal_HTTPResponse (Payload m) = inr examples.not_found).
Proof.
  destruct (C3_round_trip examples.post_form examples.not_found) as [Hreq Hresp].
  split; [apply Hreq|apply Hresp]; by vm_compute.
Defined.

(** C3, as it stands, fails: a byte that is not UTF-8 in the path comes back
    as the three bytes of U+FFFD. *)
Lemma C3_invalid_utf8_replaced :
  match transmit (NewRequestMessage examples.raw_path) with
  | inr m => Unmarshal_HTTPRequest (Payload m)
  | inl err => inl err
  end
  = inr (mkHTTPRequest "GET"
           ["/"%char; ascii_of_N 239; ascii_of_N 191; ascii_of_N 189] ∅ "").
Proof. by vm_compute. Qed.




